(** * ExploreX: the in-process rate limiter of [server/security.ts]

    A shallow embedding of [getClientIp] and [createRateLimiter] and the
    proofs of their specification.

    Modelling conventions.
    - JavaScript numbers are taken at integer values in the range where
      double arithmetic is exact ([Date.now()] is an integer number of
      milliseconds; [windowMs] and [max] are integers), so they are [Z] and
      [+], [-], [<=], [Math.max], [Math.min] are those of [Z];
      [x / 1000] is a rational and [Math.ceil] its ceiling; [String(n)] is
      the decimal numeral of [n].
    - Header values reach the program as Latin-1 decoded strings, one
      character per byte: a [string] of 8-bit [ascii] characters.
    - The [Map<string, Bucket>] holds references to [Bucket] objects, which
      the handler mutates in place; the model keeps the map of references
      and the store of objects apart.
    - [Date.now()] is a parameter of each handler call and of each timer
      tick. *)

From Stdlib Require Import Ascii QArith Qround.
From stdpp Require Import gmap strings pretty list fin_maps.

Local Open Scope Z_scope.

(** ** JavaScript strings: [split], [trim], truthiness *)

Module JsString.

(** [s.split(sep)] for a one-character separator: all the fields, in order;
    the result is never empty. *)
Fixpoint split (sep : ascii) (s : string) : list string :=
  match s with
  | EmptyString => [EmptyString]
  | String c s' =>
      if decide (c = sep) then EmptyString :: split sep s'
      else match split sep s' with
           | field :: fields => String c field :: fields
           | [] => [String c EmptyString]
           end
  end.

(** The characters [trim] strips, among the 256 a header can hold: the
    ECMAScript WhiteSpace and LineTerminator code points below 256, that is
    TAB, LF, VT, FF, CR, SPACE and NO-BREAK SPACE. *)
Definition isWhiteSpace (c : ascii) : bool :=
  bool_decide (nat_of_ascii c ∈ [9; 10; 11; 12; 13; 32; 160]%nat).

Fixpoint trimStart (s : string) : string :=
  match s with
  | EmptyString => EmptyString
  | String c s' => if isWhiteSpace c then trimStart s' else s
  end.

Fixpoint trimEnd (s : string) : string :=
  match s with
  | EmptyString => EmptyString
  | String c s' =>
      match trimEnd s' with
      | EmptyString => if isWhiteSpace c then EmptyString else String c EmptyString
      | t => String c t
      end
  end.

Definition trim (s : string) : string := trimEnd (trimStart s).

(** [a || b] on [string | undefined] operands with a string default:
    [undefined] and the empty string are falsy. *)
Definition or_else (a : option string) (b : string) : string :=
  match a with
  | Some (String c s) => String c s
  | Some EmptyString | None => b
  end.

(** [a || b] where [b] may itself be [undefined]. *)
Definition or_opt (a b : option string) : option string :=
  match a with
  | Some (String c s) => a
  | Some EmptyString | None => b
  end.

(** Every character of [s] satisfies [p]. *)
Fixpoint all (p : ascii → bool) (s : string) : bool :=
  match s with
  | EmptyString => true
  | String c s' => p c && all p s'
  end.

(** The last character of a non-empty string. *)
Fixpoint last (s : string) : option ascii :=
  match s with
  | EmptyString => None
  | String c EmptyString => Some c
  | String _ s' => last s'
  end.

Definition first (s : string) : option ascii :=
  match s with
  | EmptyString => None
  | String c _ => Some c
  end.

End JsString.

(** ** The request, as far as the limiter reads it *)

(** A header of [req.headers] is [string | string[] | undefined]. *)
Inductive HeaderValue :=
  | HString (s : string)
  | HArray (l : list string).

Record Socket := { remoteAddress : option string }.

Record Request := {
  headers : gmap string HeaderValue;
  ip : option string;
  socket : Socket
}.

Definition getClientIp (req : Request) : string :=
  let header := headers req !! "x-forwarded-for"%string in
  let first :=
    match header with
    | Some (HArray l) => head l
    | Some (HString s) => Some s
    | None => None
    end in
  let address :=
    JsString.or_else (JsString.or_opt (ip req) (remoteAddress (socket req)))
      "unknown" in
  match first with
  | Some s =>
      if bool_decide (0 < String.length s)%nat
      then JsString.trim (default EmptyString (head (JsString.split "," s)))
      else address
  | None => address
  end.

(** ** Numbers *)

Module Math.
Definition max (a b : Z) : Z := Z.max a b.
Definition min (a b : Z) : Z := Z.min a b.
(** [Math.ceil] of a quotient of integers. *)
Definition ceil (q : Q) : Z := Qceiling q.
End Math.

(** [String(n)] for an integer [n]: its decimal numeral. *)
Definition String_ (n : Z) : string := pretty n.

(** ** State: a small state monad over stdpp's [mret] and [mbind] *)

Definition M (S A : Type) : Type := S → A * S.

Global Instance M_ret S : MRet (M S) := λ A a s, (a, s).
Global Instance M_bind S : MBind (M S) :=
  λ A B k m s, let '(a, s') := m s in k a s'.

(** A monadic [for (const x of xs) body(x)]. *)
Fixpoint for_of {S A} (xs : list A) (body : A → M S unit) : M S unit :=
  match xs with
  | [] => mret ()
  | x :: xs' => body x;; for_of xs' body
  end.

(** ** The bucket registry *)

Record Bucket := { count : Z; resetAt : Z }.

Global Instance Bucket_inhabited : Inhabited Bucket :=
  populate {| count := 0; resetAt := 0 |}.

(** Object identity of a [Bucket]. *)
Definition ref := positive.

(** The closure variable [buckets], a [Map] from keys to references, and
    the [Bucket] objects those references denote. *)
Record Mem := {
  buckets : gmap string ref;
  objects : gmap ref Bucket
}.

Module Buckets.
(** [buckets.get(key)] *)
Definition get (key : string) : M Mem (option ref) :=
  λ μ, (buckets μ !! key, μ).
(** [buckets.set(key, r)] *)
Definition set (key : string) (r : ref) : M Mem unit :=
  λ μ, ((), {| buckets := <[key := r]> (buckets μ); objects := objects μ |}).
(** [buckets.delete(key)] *)
Definition delete (key : string) : M Mem unit :=
  λ μ, ((), {| buckets := base.delete key (buckets μ); objects := objects μ |}).
(** [buckets.entries()], with each value as a reference *)
Definition entries : M Mem (list (string * ref)) :=
  λ μ, (map_to_list (buckets μ), μ).
End Buckets.

(** The object literal [{ count: c, resetAt: t }]: a new object. *)
Definition new_Bucket (b : Bucket) : M Mem ref :=
  λ μ, let r := fresh (dom (objects μ)) in
       (r, {| buckets := buckets μ; objects := <[r := b]> (objects μ) |}).

(** Reading the fields of the object behind [r]. *)
Definition read (r : ref) : M Mem Bucket :=
  λ μ, (objects μ !!! r, μ).

(** [r.count = c] *)
Definition set_count (r : ref) (c : Z) : M Mem unit :=
  λ μ, ((), {| buckets := buckets μ;
               objects := <[r := {| count := c; resetAt := resetAt (objects μ !!! r) |}]>
                            (objects μ) |}).

(** What [buckets.get(key)] denotes, as a value. *)
Definition bucketOf (μ : Mem) (key : string) : option Bucket :=
  (λ r, objects μ !!! r) <$> buckets μ !! key.

(** ** The response and the handler's world *)

(** The body [{ error: ... }] sent with [res.json]. *)
Record ErrorBody := { error : string }.

Record Response := {
  resHeaders : gmap string string;
  statusCode : Z;
  jsonBody : option ErrorBody
}.

(** What one call of the handler can touch: the registry, the response
    object, and [next], of which the calls are counted. *)
Record World := {
  mem : Mem;
  res : Response;
  nextCalls : nat
}.

Definition inMem {A} (m : M Mem A) : M World A :=
  λ w, let '(a, μ) := m (mem w) in
       (a, {| mem := μ; res := res w; nextCalls := nextCalls w |}).

(** [res.setHeader(name, value)] *)
Definition setHeader (name value : string) : M World unit :=
  λ w, ((), {| mem := mem w;
               res := {| resHeaders := <[name := value]> (resHeaders (res w));
                         statusCode := statusCode (res w);
                         jsonBody := jsonBody (res w) |};
               nextCalls := nextCalls w |}).

(** [res.status(code).json(body)] *)
Definition status_json (code : Z) (body : ErrorBody) : M World unit :=
  λ w, ((), {| mem := mem w;
               res := {| resHeaders := resHeaders (res w);
                         statusCode := code;
                         jsonBody := Some body |};
               nextCalls := nextCalls w |}).

(** [next()] *)
Definition next : M World unit :=
  λ w, ((), {| mem := mem w; res := res w; nextCalls := S (nextCalls w) |}).

(** ** [createRateLimiter] *)

Module Options.
Record RateLimitOptions := {
  windowMs : Z;
  max : Z;
  keyGenerator : option (Request → string);
  message : option string
}.
End Options.

Section createRateLimiter.
Variable options : Options.RateLimitOptions.

Definition windowMs : Z := Math.max 1000 (Options.windowMs options).
Definition max : Z := Math.max 1 (Options.max options).
Definition keyGenerator : Request → string :=
  match Options.keyGenerator options with
  | Some f => f
  | None => λ req, getClientIp req
  end.

(** The callback of [setInterval], run at clock reading [now]. Deleting
    the entry being visited does not disturb the iteration of a [Map], so
    the loop visits the entries the map had when it started. *)
Definition sweep (now : Z) : M Mem unit :=
  entries ← Buckets.entries;
  for_of entries (λ '(key, r),
    bucket ← read r;
    if bool_decide (resetAt bucket ≤ now) then Buckets.delete key else mret ()).

Definition sweepDelay : Z := Math.min windowMs 60000.

(** The returned handler, run at clock reading [now]. *)
Definition middleware (req : Request) (now : Z) : M World unit :=
  let key := keyGenerator req in
  let openWindow : M World unit :=
    r ← inMem (new_Bucket {| count := 1; resetAt := now + windowMs |});
    inMem (Buckets.set key r);;
    setHeader "X-RateLimit-Limit" (String_ max);;
    setHeader "X-RateLimit-Remaining" (String_ (max - 1));;
    setHeader "X-RateLimit-Reset"
      (String_ (Math.ceil (inject_Z (now + windowMs) / 1000)));;
    next in
  existing ← inMem (Buckets.get key);
  match existing with
  | None => openWindow
  | Some r =>
      bucket ← inMem (read r);
      if bool_decide (resetAt bucket ≤ now) then openWindow
      else if bool_decide (max ≤ count bucket) then
        let retryAfterSeconds :=
          Math.max 1 (Math.ceil (inject_Z (resetAt bucket - now) / 1000)) in
        setHeader "Retry-After" (String_ retryAfterSeconds);;
        setHeader "X-RateLimit-Limit" (String_ max);;
        setHeader "X-RateLimit-Remaining" "0";;
        setHeader "X-RateLimit-Reset"
          (String_ (Math.ceil (inject_Z (resetAt bucket) / 1000)));;
        status_json 429
          {| error := JsString.or_else (Options.message options)
                        "Too many requests. Please try again later." |}
      else
        inMem (set_count r (count bucket + 1));;
        inMem (Buckets.set key r);;
        bucket' ← inMem (read r);
        setHeader "X-RateLimit-Limit" (String_ max);;
        setHeader "X-RateLimit-Remaining"
          (String_ (Math.max 0 (max - count bucket')));;
        setHeader "X-RateLimit-Reset"
          (String_ (Math.ceil (inject_Z (resetAt bucket') / 1000)));;
        next
  end.
End createRateLimiter.

(** What [createRateLimiter(options)] sets up: an empty registry, the
    interval timer and the handler it returns. *)
Record RateLimiter := {
  registry : gmap string ref;
  timerCallback : Z → M Mem unit;
  timerDelay : Z;
  handler : Request → Z → M World unit
}.

Definition createRateLimiter (options : Options.RateLimitOptions) : RateLimiter :=
  {| registry := ∅;
     timerCallback := sweep;
     timerDelay := sweepDelay options;
     handler := middleware options |}.

(** ** Runs of a limiter: handler calls and timer ticks *)

(** One handler call on registry [μ] with response object [rs]. *)
Definition serve (options : Options.RateLimitOptions)
    (req : Request) (rs : Response) (now : Z) (μ : Mem) : World :=
  (middleware options req now {| mem := μ; res := rs; nextCalls := 0 |}).2.

Inductive Event :=
  | Incoming (req : Request) (rs : Response) (now : Z)
  | Tick (now : Z).

(** A served request: the request, the response object as it came in, and
    the world the handler left. *)
Record Served := {
  request : Request;
  incoming : Response;
  after : World
}.

Fixpoint run (options : Options.RateLimitOptions) (evs : list Event) (μ : Mem)
    : Mem * list Served :=
  match evs with
  | [] => (μ, [])
  | Incoming req rs now :: evs' =>
      let w := serve options req rs now μ in
      let '(μ', log) := run options evs' (mem w) in
      (μ', {| request := req; incoming := rs; after := w |} :: log)
  | Tick now :: evs' => run options evs' (sweep now μ).2
  end.

(** The registries a limiter can be in: created empty, in any heap, then
    driven by handler calls and timer ticks. *)
Inductive reachable (options : Options.RateLimitOptions) : Mem → Prop :=
  | reachable_created h :
      reachable options
        {| buckets := registry (createRateLimiter options); objects := h |}
  | reachable_served μ req rs now :
      reachable options μ →
      reachable options (mem (serve options req rs now μ))
  | reachable_swept μ now :
      reachable options μ →
      reachable options (timerCallback (createRateLimiter options) now μ).2.

(** The handler let the request through: it called [next] once and sent
    nothing itself. *)
Definition allowed (s : Served) : Prop :=
  nextCalls (after s) = 1%nat ∧
  statusCode (res (after s)) = statusCode (incoming s) ∧
  jsonBody (res (after s)) = jsonBody (incoming s).

(** The handler answered 429 itself and did not call [next]. *)
Definition rejected (s : Served) : Prop :=
  nextCalls (after s) = 0%nat ∧
  statusCode (res (after s)) = 429 ∧
  is_Some (jsonBody (res (after s))).

(** The served requests of key [k], in order. *)
Definition servedFor (options : Options.RateLimitOptions) (k : string)
    (log : list Served) : list Served :=
  filter (λ s, keyGenerator options (request s) = k) log.

(** An event that happens while the window ending at [R] is open for
    [k]: a request of [k] or a tick before [R]; requests of other keys are
    not constrained. *)
Definition withinWindow (options : Options.RateLimitOptions) (k : string)
    (R : Z) (ev : Event) : Prop :=
  match ev with
  | Incoming req _ now => keyGenerator options req = k → now < R
  | Tick now => now < R
  end.

(** ** Specifications of the string operations *)

(** [f] is the first comma-separated field of [s]. *)
Definition firstField (s f : string) : Prop :=
  JsString.all (λ c, bool_decide (c ≠ ","%char)) f = true ∧
  (s = f ∨ ∃ rest, s = f +:+ String "," rest).

(** [t] neither starts nor ends with white space. *)
Definition stripped (t : string) : Prop :=
  (∀ c, JsString.first t = Some c → JsString.isWhiteSpace c = false) ∧
  (∀ c, JsString.last t = Some c → JsString.isWhiteSpace c = false).

(** [t] is [s] without its leading and trailing white space. *)
Definition trimmed (s t : string) : Prop :=
  stripped t ∧
  ∃ pre post, s = pre +:+ t +:+ post ∧
    JsString.all JsString.isWhiteSpace pre = true ∧
    JsString.all JsString.isWhiteSpace post = true.

(** The value of the [x-forwarded-for] header that [getClientIp] looks
    at: the header itself, or its first element when it is an array. *)
Definition forwardedFor (req : Request) : option string :=
  match headers req !! "x-forwarded-for"%string with
  | Some (HString s) => Some s
  | Some (HArray l) => head l
  | None => None
  end.

(** A string operand of [||] that is [undefined] or empty. *)
Definition falsy (a : option string) : Prop := a = None ∨ a = Some EmptyString.

(** Well-formed registries: every reference held by the map denotes an
    object, and no two keys hold the same reference. *)
Definition wf (μ : Mem) : Prop :=
  (∀ k r, buckets μ !! k = Some r → r ∈ dom (objects μ)) ∧
  (∀ k1 k2 r, buckets μ !! k1 = Some r → buckets μ !! k2 = Some r → k1 = k2).

(** The three things the handler tells apart about the caller's bucket. *)
Definition opens (μ : Mem) (key : string) (now : Z) : Prop :=
  bucketOf μ key = None ∨ ∃ b, bucketOf μ key = Some b ∧ resetAt b ≤ now.

Definition rejects (options : Options.RateLimitOptions)
    (μ : Mem) (key : string) (now : Z) : Prop :=
  ∃ b, bucketOf μ key = Some b ∧ now < resetAt b ∧ max options ≤ count b.

Definition accepts (options : Options.RateLimitOptions)
    (μ : Mem) (key : string) (now : Z) : Prop :=
  ∃ b, bucketOf μ key = Some b ∧ now < resetAt b ∧ count b < max options.

(** The [X-RateLimit-Remaining] header a served request carries. *)
Definition remaining (s : Served) : option string :=
  resHeaders (res (after s)) !! "X-RateLimit-Remaining"%string.

(** [ev] is a request of key [k]. *)
Definition isRequestOf (options : Options.RateLimitOptions) (k : string)
    (ev : Event) : Prop :=
  match ev with
  | Incoming req _ _ => keyGenerator options req = k
  | Tick _ => False
  end.

Global Instance isRequestOf_dec options k ev : Decision (isRequestOf options k ev).
Proof. destruct ev; simpl; apply _. Defined.

(** The requests of key [k] among the events. *)
Definition requestsOf (options : Options.RateLimitOptions) (k : string)
    (evs : list Event) : list Event :=
  filter (isRequestOf options k) evs.

(** Every bucket of the registry holds a count between 1 and [max]. *)
Definition countsBounded (options : Options.RateLimitOptions) (μ : Mem) : Prop :=
  ∀ k b, bucketOf μ k = Some b → 1 ≤ count b ≤ max options.


(** ** Subscription tiers ([client/context/SubscriptionContext.tsx]) *)

Module Subscription.

Inductive SubscriptionTier := starter | explorer | adventurer | lifetime.

Definition ENTITLEMENT_EXPLORER : string := "explorer".
Definition ENTITLEMENT_ADVENTURER : string := "adventurer".
Definition ENTITLEMENT_LIFETIME : string := "lifetime".

(** [l.includes(x)] on an array of strings. *)
Definition includes (l : list string) (x : string) : bool := bool_decide (x ∈ l).

Definition getTierFromEntitlements (activeEntitlements : list string)
    : SubscriptionTier :=
  if includes activeEntitlements ENTITLEMENT_LIFETIME
     || includes activeEntitlements "lifetime"
  then lifetime
  else if includes activeEntitlements ENTITLEMENT_ADVENTURER
          || includes activeEntitlements "adventurer"
  then adventurer
  else if includes activeEntitlements ENTITLEMENT_EXPLORER
          || includes activeEntitlements "explorer"
          || includes activeEntitlements "Nomad Connect Pro"
  then explorer
  else starter.

(** An entitlement of [info.entitlements.active], as far as it is read. *)
Record EntitlementInfo := { isActive : bool }.

(** The part of a [CustomerInfo] that is read: [info.entitlements.active],
    an object from entitlement identifiers to entitlements. *)
Record CustomerInfo := { entitlements_active : gmap string EntitlementInfo }.

(** [info.entitlements.active[id]?.isActive], as a condition. *)
Definition activeAt (info : CustomerInfo) (id : string) : bool :=
  match entitlements_active info !! id with
  | Some e => isActive e
  | None => false
  end.

Definition getTierFromCustomerInfo (info : CustomerInfo) : SubscriptionTier :=
  let activeEntitlements := (map_to_list (entitlements_active info)).*1 in
  if activeAt info ENTITLEMENT_LIFETIME then lifetime
  else if activeAt info ENTITLEMENT_ADVENTURER then adventurer
  else if activeAt info ENTITLEMENT_EXPLORER then explorer
  else getTierFromEntitlements activeEntitlements.

(** The order of the tiers, from the free one up. *)
Definition rank (t : SubscriptionTier) : nat :=
  match t with
  | starter => 0
  | explorer => 1
  | adventurer => 2
  | lifetime => 3
  end.

End Subscription.

(** ** File names of uploads (second module of [client/screens/SplashScreen.tsx]) *)

Definition getFileName (uri fallback : string) : string :=
  let fromUri := last (JsString.split "/" uri) in
  match fromUri with
  | Some f => if bool_decide (0 < String.length f)%nat then f else fallback
  | None => fallback
  end.

(** [f] is what follows the last slash of [s], or [s] itself when it has
    no slash. *)
Definition lastField (s f : string) : Prop :=
  JsString.all (λ c, bool_decide (c ≠ "/"%char)) f = true ∧
  (s = f ∨ ∃ pre, s = pre +:+ String "/" f).

(** ** Concrete limiters and requests *)

Module Sample.
(** [createRateLimiter({ windowMs: 1000, max: 2 })] *)
Definition two_per_second : Options.RateLimitOptions :=
  {| Options.windowMs := 1000; Options.max := 2;
     Options.keyGenerator := None; Options.message := None |}.

(** [createRateLimiter({ windowMs: 1000, max: 1, message: m })] *)
Definition one_per_second (m : option string) : Options.RateLimitOptions :=
  {| Options.windowMs := 1000; Options.max := 1;
     Options.keyGenerator := None; Options.message := m |}.

(** A request with the given [x-forwarded-for] header, [req.ip] and
    [req.socket.remoteAddress]. *)
Definition request_from (forwarded : option HeaderValue)
    (ip remote : option string) : Request :=
  {| headers := match forwarded with
                | Some v => {[ "x-forwarded-for"%string := v ]}
                | None => ∅
                end;
     ip := ip;
     socket := {| remoteAddress := remote |} |}.

(** A request from the peer 1.2.3.4, without forwarding header. *)
Definition from_1234 : Request := request_from None (Some "1.2.3.4"%string) None.

(** A request from the peer 5.6.7.8, without forwarding header. *)
Definition from_5678 : Request := request_from None (Some "5.6.7.8"%string) None.

(** A response object nothing has been written to. *)
Definition blank : Response :=
  {| resHeaders := ∅; statusCode := 200; jsonBody := None |}.

(** The registry of a limiter just created, in an empty heap. *)
Definition created : Mem := {| buckets := ∅; objects := ∅ |}.
End Sample.

(** * Proofs *)

(** ** Strings *)

Section strings.
Import JsString.

Lemma split_nonempty sep s : split sep s ≠ [].
Proof. induction s as [|c s IH]; simpl; [done|]. case_decide; [done|]. by destruct (split sep s). Qed.

Lemma head_split_no_sep s :
  all (λ c, bool_decide (c ≠ ","%char)) s = true → head (split "," s) = Some s.
Proof.
  induction s as [|c s IH]; simpl; [done|].
  intros [Hc Hs]%andb_true_iff. apply bool_decide_eq_true in Hc.
  case_decide; [done|]. specialize (IH Hs).
  destruct (split "," s) as [|f fs]; simpl in *; congruence.
Qed.

Lemma head_split_sep f rest :
  all (λ c, bool_decide (c ≠ ","%char)) f = true →
  head (split "," (f +:+ String "," rest)) = Some f.
Proof.
  induction f as [|c f IH]; simpl.
  - done.
  - intros [Hc Hf]%andb_true_iff. apply bool_decide_eq_true in Hc.
    case_decide; [done|]. specialize (IH Hf).
    destruct (split "," (f +:+ String "," rest)) as [|g gs]; simpl in *; congruence.
Qed.

(** [split(",")[0]] is the first field, and nothing else is. *)
Lemma head_split_firstField s f :
  firstField s f ↔ head (split "," s) = Some f.
Proof.
  split.
  - intros [Hf [->|[rest ->]]]; [by apply head_split_no_sep|by apply head_split_sep].
  - revert f. induction s as [|c s IH]; simpl; intros f Hh.
    + injection Hh as <-. split; [done|by left].
    + case_decide as Hc.
      * injection Hh as <-. subst c. split; [done|]. right. by exists s.
      * destruct (split "," s) as [|g gs] eqn:Hsp; simpl in *.
        { by apply split_nonempty in Hsp. }
        injection Hh as <-. destruct (IH g eq_refl) as [Hg Hs].
        split; [simpl; rewrite Hg; by rewrite bool_decide_eq_true_2|].
        destruct Hs as [->|[rest ->]]; [by left|right; by exists rest].
Qed.

Lemma trimStart_all_ws s : all isWhiteSpace s = true → trimStart s = EmptyString.
Proof.
  induction s as [|c s IH]; simpl; [done|].
  intros [Hc Hs]%andb_true_iff. rewrite Hc. auto.
Qed.

Lemma trimEnd_all_ws s : all isWhiteSpace s = true → trimEnd s = EmptyString.
Proof.
  induction s as [|c s IH]; simpl; [done|].
  intros [Hc Hs]%andb_true_iff. by rewrite (IH Hs), Hc.
Qed.

Lemma trimStart_app pre u :
  all isWhiteSpace pre = true → trimStart (pre +:+ u) = trimStart u.
Proof.
  induction pre as [|c pre IH]; simpl; [done|].
  intros [Hc Hs]%andb_true_iff. rewrite Hc. auto.
Qed.

Lemma trimStart_id u :
  (∀ c, first u = Some c → isWhiteSpace c = false) → trimStart u = u.
Proof. destruct u as [|c u]; simpl; [done|]. intros H. by rewrite (H c eq_refl). Qed.

Lemma trimEnd_app t post :
  all isWhiteSpace post = true → trimEnd (t +:+ post) = trimEnd t.
Proof.
  intros Hp. induction t as [|c t IH]; simpl.
  - by apply trimEnd_all_ws.
  - by rewrite IH.
Qed.

Lemma trimEnd_id t :
  (∀ c, last t = Some c → isWhiteSpace c = false) → trimEnd t = t.
Proof.
  induction t as [|c t IH]; [done|].
  destruct t as [|d t].
  - simpl. intros H. by rewrite (H c eq_refl).
  - intros H. change (trimEnd (String c (String d t)))
      with (match trimEnd (String d t) with
            | EmptyString => if isWhiteSpace c then EmptyString else String c EmptyString
            | u => String c u
            end).
    rewrite IH; [done|]. intros e He. by apply H.
Qed.

Lemma append_cons c (a b : string) : String c a +:+ b = String c (a +:+ b).
Proof. reflexivity. Qed.

Lemma trimStart_decompose s :
  ∃ pre, s = pre +:+ trimStart s ∧ all isWhiteSpace pre = true ∧
         ∀ c, first (trimStart s) = Some c → isWhiteSpace c = false.
Proof.
  induction s as [|c s (pre & Hs & Hpre & Hf)]; simpl.
  - by exists EmptyString.
  - destruct (isWhiteSpace c) eqn:Hc.
    + exists (String c pre). rewrite append_cons, <- Hs. simpl. by rewrite Hc, Hpre.
    + exists EmptyString. split_and!; [done..|]. by intros d [= <-].
Qed.

Lemma trimEnd_decompose s :
  ∃ post, s = trimEnd s +:+ post ∧ all isWhiteSpace post = true ∧
          ∀ c, last (trimEnd s) = Some c → isWhiteSpace c = false.
Proof.
  induction s as [|c s (post & Hs & Hpost & Hl)]; simpl.
  - by exists EmptyString.
  - destruct (trimEnd s) as [|d t] eqn:Ht.
    + change (s = post) in Hs. subst post. destruct (isWhiteSpace c) eqn:Hc.
      * exists (String c s). split_and!; [done| |done]. simpl. by rewrite Hc, Hpost.
      * exists s. split_and!; [done..|]. by intros e [= <-].
    + exists post. rewrite append_cons, <- Hs. split_and!; [done..|].
      intros e He. apply Hl. by destruct t.
Qed.

Lemma first_trimEnd s c :
  first s = Some c → isWhiteSpace c = false → first (trimEnd s) = Some c.
Proof.
  destruct s as [|d s]; simpl; [done|]. intros [= ->] Hc.
  destruct (trimEnd s); [by rewrite Hc|done].
Qed.

(** [trim] removes the leading and trailing white space, and that
    determines its result. *)
Lemma trim_trimmed s t : trimmed s t ↔ trim s = t.
Proof.
  unfold trim. split.
  - intros [[Hfirst Hlast] (pre & post & -> & Hpre & Hpost)].
    rewrite (trimStart_app _ _ Hpre).
    destruct t as [|c t].
    + change (EmptyString +:+ post) with post.
      by rewrite (trimStart_all_ws _ Hpost).
    + rewrite trimStart_id by (simpl; intros d [= <-]; by apply Hfirst).
      rewrite (trimEnd_app _ _ Hpost). by apply trimEnd_id.
  - intros <-.
    destruct (trimStart_decompose s) as (pre & Hs & Hpre & Hf).
    destruct (trimEnd_decompose (trimStart s)) as (post & Hu & Hpost & Hl).
    split; [split|].
    + intros c Hc. destruct (trimStart s) as [|d u] eqn:Hts; [done|].
      destruct (isWhiteSpace d) eqn:Hd; [by rewrite (Hf d eq_refl) in Hd|].
      rewrite (first_trimEnd (String d u) d eq_refl Hd) in Hc. by injection Hc as <-.
    + done.
    + exists pre, post. split; [|done]. by rewrite <- Hu.
Qed.

End strings.

(** ** Numbers *)

(** [Math.ceil(x / 1000)] is the integer ceiling of the quotient. *)
Lemma ceil_div_1000 x :
  Math.ceil (inject_Z x / 1000) = - ((- x) / 1000).
Proof.
  unfold Math.ceil, Qceiling, Qfloor. simpl. by rewrite Z.mul_1_r.
Qed.

Lemma ceil_div_1000_spec x :
  1000 * (Math.ceil (inject_Z x / 1000) - 1) < x ≤ 1000 * Math.ceil (inject_Z x / 1000).
Proof.
  rewrite ceil_div_1000.
  pose proof (Z.div_mod (- x) 1000 ltac:(lia)).
  pose proof (Z.mod_pos_bound (- x) 1000 ltac:(lia)). lia.
Qed.

Lemma ceil_div_1000_pos x : 0 < x → 1 ≤ Math.ceil (inject_Z x / 1000).
Proof. intros Hx. pose proof (ceil_div_1000_spec x). lia. Qed.

Lemma String_inj n m : String_ n = String_ m → n = m.
Proof. apply pretty_Z_inj. Qed.

(** ** One handler call *)

Ltac proj_M :=
  cbn [mem res nextCalls buckets objects fst snd resHeaders statusCode jsonBody
       count resetAt].

Ltac run_M :=
  cbv [serve middleware mbind M_bind mret M_ret inMem Buckets.get Buckets.set
       new_Bucket read set_count setHeader status_json next];
  proj_M.

Lemma bucketOf_None μ key : bucketOf μ key = None ↔ buckets μ !! key = None.
Proof. unfold bucketOf. apply fmap_None. Qed.

Lemma bucketOf_Some μ key b :
  bucketOf μ key = Some b ↔ ∃ r, buckets μ !! key = Some r ∧ b = objects μ !!! r.
Proof. unfold bucketOf. apply fmap_Some. Qed.

Lemma handler_cases options μ key now :
  opens μ key now ∨ rejects options μ key now ∨ accepts options μ key now.
Proof.
  unfold opens, rejects, accepts. destruct (bucketOf μ key) as [b|]; [|by left; left].
  destruct (decide (resetAt b ≤ now)); [left; right; eauto|].
  destruct (decide (max options ≤ count b)); right; [left|right];
    exists b; split_and!; (done || lia).
Qed.

Section serve.
Variable options : Options.RateLimitOptions.
Variables (req : Request) (rs : Response) (now : Z) (μ : Mem).

Let key := keyGenerator options req.
Let N := max options.
Let W := windowMs options.

Lemma serve_opens :
  opens μ key now →
  serve options req rs now μ =
    let r := fresh (dom (objects μ)) in
    {| mem := {| buckets := <[key := r]> (buckets μ);
                 objects := <[r := {| count := 1; resetAt := now + W |}]> (objects μ) |};
       res := {| resHeaders :=
                   <["X-RateLimit-Reset"%string :=
                       String_ (Math.ceil (inject_Z (now + W) / 1000))]>
                     (<["X-RateLimit-Remaining"%string := String_ (N - 1)]>
                        (<["X-RateLimit-Limit"%string := String_ N]> (resHeaders rs)));
                 statusCode := statusCode rs;
                 jsonBody := jsonBody rs |};
       nextCalls := 1 |}.
Proof.
  intros Ho. run_M. fold key.
  destruct Ho as [Hn%bucketOf_None|(b & (r & Hr & ->)%bucketOf_Some & Hexp)].
  - by rewrite Hn.
  - rewrite Hr. proj_M. by rewrite bool_decide_eq_true_2.
Qed.

Lemma serve_rejects b :
  bucketOf μ key = Some b → now < resetAt b → N ≤ count b →
  serve options req rs now μ =
    {| mem := μ;
       res := {| resHeaders :=
                   <["X-RateLimit-Reset"%string :=
                       String_ (Math.ceil (inject_Z (resetAt b) / 1000))]>
                     (<["X-RateLimit-Remaining"%string := "0"%string]>
                        (<["X-RateLimit-Limit"%string := String_ N]>
                           (<["Retry-After"%string :=
                                String_ (Math.max 1
                                  (Math.ceil (inject_Z (resetAt b - now) / 1000)))]>
                              (resHeaders rs))));
                 statusCode := 429;
                 jsonBody := Some {| error :=
                   JsString.or_else (Options.message options)
                     "Too many requests. Please try again later." |} |};
       nextCalls := 0 |}.
Proof.
  intros (r & Hr & ->)%bucketOf_Some Hact Hfull. run_M. fold key. rewrite Hr.
  proj_M. rewrite bool_decide_eq_false_2 by lia. by rewrite bool_decide_eq_true_2.
Qed.

Lemma serve_accepts r :
  buckets μ !! key = Some r →
  let b := objects μ !!! r in
  now < resetAt b → count b < N →
  serve options req rs now μ =
    {| mem := {| buckets := <[key := r]> (buckets μ);
                 objects := <[r := {| count := count b + 1; resetAt := resetAt b |}]>
                              (objects μ) |};
       res := {| resHeaders :=
                   <["X-RateLimit-Reset"%string :=
                       String_ (Math.ceil (inject_Z (resetAt b) / 1000))]>
                     (<["X-RateLimit-Remaining"%string :=
                          String_ (Math.max 0 (N - (count b + 1)))]>
                        (<["X-RateLimit-Limit"%string := String_ N]> (resHeaders rs)));
                 statusCode := statusCode rs;
                 jsonBody := jsonBody rs |};
       nextCalls := 1 |}.
Proof.
  intros Hr b Hact Hroom. run_M. fold key. rewrite Hr. proj_M. fold b.
  rewrite !bool_decide_eq_false_2 by (unfold N in *; lia).
  proj_M. by rewrite lookup_total_insert_eq.
Qed.
End serve.

(** ** The sweep *)

Section sweep.
Variable now : Z.

Let body : string * ref → M Mem unit := λ '(key, r),
  bucket ← read r;
  if bool_decide (resetAt bucket ≤ now) then Buckets.delete key else mret ().

Let hit (μ : Mem) (k : string) : string * ref → Prop :=
  λ '(key, r), key = k ∧ resetAt (objects μ !!! r) ≤ now.

Local Instance hit_dec μ k e : Decision (hit μ k e).
Proof. destruct e; simpl; apply _. Defined.

Lemma for_of_body_objects l μ : objects (for_of l body μ).2 = objects μ.
Proof.
  revert μ. induction l as [|[key r] l IH]; intros μ; [done|].
  cbn [for_of]. cbv [mbind M_bind body read Buckets.delete mret M_ret].
  destruct (bool_decide _); rewrite IH; done.
Qed.

Lemma for_of_body_lookup l μ k :
  buckets (for_of l body μ).2 !! k =
    if decide (Exists (hit μ k) l) then None else buckets μ !! k.
Proof.
  revert μ. induction l as [|[key r] l IH]; intros μ.
  - cbn. case_decide as H; [by apply Exists_nil in H|done].
  - cbn [for_of]. cbv [mbind M_bind body read Buckets.delete mret M_ret].
    destruct (bool_decide _) eqn:Hexp; rewrite IH; cbn [buckets objects].
    + apply bool_decide_eq_true in Hexp.
      destruct (decide (key = k)) as [->|Hne].
      * rewrite lookup_delete_eq. rewrite (decide_True (P := Exists _ (_ :: _))).
        { by case_decide. }
        by apply Exists_cons_hd.
      * rewrite lookup_delete_ne by done.
        apply decide_ext. rewrite Exists_cons. simpl. tauto.
    + apply bool_decide_eq_false in Hexp.
      apply decide_ext. rewrite Exists_cons. simpl. tauto.
Qed.

Lemma sweep_objects μ : objects (sweep now μ).2 = objects μ.
Proof. apply for_of_body_objects. Qed.

Lemma sweep_lookup μ k :
  buckets (sweep now μ).2 !! k =
    match buckets μ !! k with
    | Some r => if decide (resetAt (objects μ !!! r) ≤ now) then None else Some r
    | None => None
    end.
Proof.
  unfold sweep. cbv [mbind M_bind Buckets.entries]. fold body.
  rewrite for_of_body_lookup.
  destruct (buckets μ !! k) as [r|] eqn:Hk.
  - apply decide_ext. rewrite Exists_exists. split.
    + intros ([key r'] & Hin%elem_of_map_to_list & [-> Hexp]). by simplify_eq.
    + intros Hexp. exists (k, r). split; [by apply elem_of_map_to_list|done].
  - case_decide as H; [|done]. exfalso. apply Exists_exists in H.
    destruct H as ([key r'] & Hin%elem_of_map_to_list & [-> Hexp]). by simplify_eq.
Qed.

Lemma sweep_bucketOf μ k :
  bucketOf (sweep now μ).2 k =
    match bucketOf μ k with
    | Some b => if decide (resetAt b ≤ now) then None else Some b
    | None => None
    end.
Proof.
  unfold bucketOf. rewrite sweep_lookup, sweep_objects.
  destruct (buckets μ !! k) as [r|]; simpl; [|done]. by case_decide.
Qed.

Lemma sweep_wf μ : wf μ → wf (sweep now μ).2.
Proof.
  intros [Hdom Hinj].
  assert (∀ k r, buckets (sweep now μ).2 !! k = Some r → buckets μ !! k = Some r) as Hsub.
  { intros k r. rewrite sweep_lookup. destruct (buckets μ !! k); [|done]. by case_decide. }
  split.
  - intros k r Hk%Hsub. rewrite sweep_objects. eauto.
  - intros k1 k2 r H1%Hsub H2%Hsub. eauto.
Qed.
End sweep.

(** ** Well-formedness and the frame of a handler call *)

Section frame.
Variable options : Options.RateLimitOptions.
Variables (req : Request) (rs : Response) (now : Z) (μ : Mem).

Let key := keyGenerator options req.

Lemma serve_wf : wf μ → wf (mem (serve options req rs now μ)).
Proof.
  intros [Hdom Hinj].
  destruct (handler_cases options μ key now)
    as [Ho|[(b & Hb & ? & ?)|(b & (r & Hr & ->)%bucketOf_Some & ? & ?)]].
  - rewrite serve_opens by done. cbn [mem]. set (r := fresh _).
    assert (r ∉ dom (objects μ)) as Hfresh by apply is_fresh.
    split; cbn [buckets objects].
    + intros k r'. rewrite dom_insert_L, lookup_insert.
      case_decide; [set_solver|]. intros ?%Hdom. set_solver.
    + intros k1 k2 r'. rewrite !lookup_insert.
      repeat case_decide; subst; try done; intros; simplify_eq; eauto;
        exfalso; eauto.
  - by erewrite serve_rejects.
  - rewrite (serve_accepts _ _ _ _ _ r) by done. cbn [mem].
    rewrite insert_id by done.
    split; cbn [buckets objects]; [|done].
    intros k r' ?%Hdom. rewrite dom_insert_L. set_solver.
Qed.

Lemma serve_frame_lookup k' :
  k' ≠ key → buckets (mem (serve options req rs now μ)) !! k' = buckets μ !! k'.
Proof.
  intros Hne.
  destruct (handler_cases options μ key now)
    as [Ho|[(b & Hb & ? & ?)|(b & (r & Hr & ->)%bucketOf_Some & ? & ?)]].
  - rewrite serve_opens by done. cbn [mem buckets]. by rewrite lookup_insert_ne.
  - by erewrite serve_rejects.
  - rewrite (serve_accepts _ _ _ _ _ r) by done. cbn [mem buckets].
    by rewrite lookup_insert_ne.
Qed.

Lemma serve_frame k' :
  wf μ → k' ≠ key → bucketOf (mem (serve options req rs now μ)) k' = bucketOf μ k'.
Proof.
  intros [Hdom Hinj] Hne. unfold bucketOf. rewrite serve_frame_lookup by done.
  destruct (buckets μ !! k') as [r'|] eqn:Hk'; [simpl; f_equal|done].
  destruct (handler_cases options μ key now)
    as [Ho|[(b & Hb & ? & ?)|(b & (r & Hr & ->)%bucketOf_Some & ? & ?)]].
  - rewrite serve_opens by done. cbn [mem objects].
    apply lookup_total_insert_ne. intros Heq.
    apply (is_fresh (dom (objects μ))). rewrite Heq. eauto.
  - by erewrite serve_rejects.
  - rewrite (serve_accepts _ _ _ _ _ r) by done. cbn [mem objects].
    apply lookup_total_insert_ne. intros <-. apply Hne. eauto.
Qed.
End frame.

(** After a call, the caller's key has a bucket. *)
Lemma serve_bucket_exists options req rs now μ :
  is_Some (bucketOf (mem (serve options req rs now μ)) (keyGenerator options req)).
Proof.
  destruct (handler_cases options μ (keyGenerator options req) now)
    as [Ho|[(b & Hb & ? & ?)|(b & (r & Hr & ->)%bucketOf_Some & ? & ?)]].
  - rewrite serve_opens by done. unfold bucketOf. cbn [mem buckets objects].
    by rewrite lookup_insert_eq.
  - rewrite (serve_rejects _ _ _ _ _ b) by done. cbn [mem]. by rewrite Hb.
  - rewrite (serve_accepts _ _ _ _ _ r) by done. unfold bucketOf.
    cbn [mem buckets objects]. by rewrite lookup_insert_eq.
Qed.

Lemma reachable_wf options μ : reachable options μ → wf μ.
Proof.
  induction 1 as [h|μ req rs now _ IH|μ now _ IH].
  - split; cbn; intros *; by rewrite lookup_empty.
  - by apply serve_wf.
  - by apply sweep_wf.
Qed.

(** ** Runs within one window *)

Section window.
Variable options : Options.RateLimitOptions.
Variable k : string.

Let N := max options.

Lemma run_incoming req rs now evs μ :
  (run options (Incoming req rs now :: evs) μ).2 =
    {| request := req; incoming := rs; after := serve options req rs now μ |}
      :: (run options evs (mem (serve options req rs now μ))).2.
Proof. cbn [run]. by destruct (run options evs _). Qed.

Lemma servedFor_length evs μ :
  length (servedFor options k (run options evs μ).2) =
  length (requestsOf options k evs).
Proof.
  revert μ. induction evs as [|[req rs now|now] evs IH]; intros μ; [done| |].
  - rewrite run_incoming. unfold servedFor, requestsOf.
    destruct (decide (keyGenerator options req = k)) as [Hk|Hk].
    + rewrite !filter_cons_True by done. cbn [length]. f_equal. apply IH.
    + rewrite !filter_cons_False by done. apply IH.
  - cbn [run]. unfold requestsOf. rewrite filter_cons_False by (cbn; tauto). apply IH.
Qed.

(** From a registry where [k]'s bucket holds count [c] and the window
    ends at [R]: the [i]-th next request of [k] sees count [c + i] as
    long as that is below [max], and a full bucket from then on. *)
Lemma window_run R evs : ∀ μ c,
  wf μ →
  bucketOf μ k = Some {| count := c; resetAt := R |} →
  c ≤ N →
  Forall (withinWindow options k R) evs →
  ∀ (i : nat) s, servedFor options k (run options evs μ).2 !! i = Some s →
    bucketOf (mem (after s)) k
      = Some {| count := Z.min (c + Z.of_nat i + 1) N; resetAt := R |} ∧
    (c + Z.of_nat i < N →
       allowed s ∧ remaining s = Some (String_ (N - (c + Z.of_nat i) - 1))) ∧
    (N ≤ c + Z.of_nat i → rejected s ∧ remaining s = Some "0"%string).
Proof.
  induction evs as [|[req rs now|now] evs IH]; intros μ c Hwf Hb Hc Hall i s.
  - done.
  - apply Forall_cons in Hall as [Hnow Hall]. cbn [withinWindow] in Hnow.
    rewrite run_incoming. unfold servedFor.
    destruct (decide (keyGenerator options req = k)) as [Hk|Hk].
    + specialize (Hnow Hk). rewrite filter_cons_True by done.
      pose proof (serve_wf options req rs now μ Hwf) as Hwf'.
      destruct (decide (c < N)) as [Hroom|Hfull].
      * apply bucketOf_Some in Hb as (r & Hr & Hobj).
        pose proof (serve_accepts options req rs now μ r) as Hserve.
        rewrite Hk, <- Hobj in Hserve. cbn [count resetAt] in Hserve.
        specialize (Hserve Hr Hnow Hroom).
        assert (bucketOf (mem (serve options req rs now μ)) k
                = Some {| count := c + 1; resetAt := R |}) as Hb'.
        { rewrite Hserve. unfold bucketOf. cbn [mem buckets objects].
          rewrite lookup_insert_eq. cbn. by rewrite lookup_total_insert_eq. }
        destruct i as [|i]; cbn [lookup list_lookup].
        -- intros [= <-]. unfold allowed, rejected, remaining.
           cbn [after incoming request]. split.
           { rewrite Hb'. do 2 f_equal. lia. }
           rewrite Hserve. cbn [res nextCalls resHeaders statusCode jsonBody].
           split; [intros _|lia]. split; [done|].
           rewrite lookup_insert_ne by done. rewrite lookup_insert_eq.
           do 2 f_equal. unfold Math.max. fold N. lia.
        -- intros Hs.
           eapply (IH _ (c + 1)) in Hs; [|done|done|lia|done].
           replace (c + 1 + Z.of_nat i) with (c + Z.of_nat (S i)) in Hs by lia.
           exact Hs.
      * assert (c = N) as -> by lia.
        pose proof (serve_rejects options req rs now μ _ ltac:(by rewrite Hk)
                      ltac:(exact Hnow) ltac:(cbn; fold N; lia)) as Hserve.
        cbn [count resetAt] in Hserve.
        destruct i as [|i]; cbn [lookup list_lookup].
        -- intros [= <-]. unfold allowed, rejected, remaining.
           cbn [after incoming request]. rewrite Hserve.
           cbn [mem res nextCalls resHeaders statusCode jsonBody].
           split; [rewrite Hb; do 2 f_equal; lia|].
           split; [lia|intros _]. split; [by eauto|].
           rewrite lookup_insert_ne by done. by rewrite lookup_insert_eq.
        -- intros Hs.
           eapply (IH _ N) in Hs; [|done| |done|done].
           ++ destruct Hs as (Hb' & _ & Hrej). split; [|split; [lia|intros _]].
              ** rewrite Hb'. do 2 f_equal. lia.
              ** apply Hrej. lia.
           ++ by rewrite Hserve.
    + rewrite filter_cons_False by done.
      apply IH; [by apply serve_wf| |done|done].
      rewrite serve_frame by done. done.
  - apply Forall_cons in Hall as [Hnow Hall]. cbn [withinWindow] in Hnow.
    cbn [run]. apply IH; [by apply sweep_wf| |done|done].
    rewrite sweep_bucketOf, Hb. cbn [resetAt]. by rewrite decide_False by lia.
Qed.

(** The window a request of [k] opens at [t0], and what follows in it. *)
Lemma window_from_opening req0 rs0 t0 evs μ :
  wf μ →
  keyGenerator options req0 = k →
  opens μ k t0 →
  Forall (withinWindow options k (t0 + windowMs options)) evs →
  let log := servedFor options k (run options (Incoming req0 rs0 t0 :: evs) μ).2 in
  length log = S (length (requestsOf options k evs)) ∧
  ∀ (i : nat) s, log !! i = Some s →
    bucketOf (mem (after s)) k
      = Some {| count := Z.min (Z.of_nat i + 1) N;
                resetAt := t0 + windowMs options |} ∧
    (Z.of_nat i < N →
       allowed s ∧ remaining s = Some (String_ (N - 1 - Z.of_nat i))) ∧
    (N ≤ Z.of_nat i → rejected s ∧ remaining s = Some "0"%string).
Proof.
  intros Hwf Hk Ho Hall log. subst log.
  assert (1 ≤ N) as HN by (unfold N, max, Math.max; lia).
  rewrite run_incoming. unfold servedFor. rewrite filter_cons_True by done.
  fold (servedFor options k (run options evs (mem (serve options req0 rs0 t0 μ))).2).
  split; [cbn [length]; by rewrite servedFor_length|].
  pose proof (serve_opens options req0 rs0 t0 μ ltac:(by rewrite Hk)) as Hserve.
  cbv zeta in Hserve. rewrite Hk in Hserve.
  assert (bucketOf (mem (serve options req0 rs0 t0 μ)) k
          = Some {| count := 1; resetAt := t0 + windowMs options |}) as Hb.
  { rewrite Hserve. unfold bucketOf. cbn [mem buckets objects].
    rewrite lookup_insert_eq. cbn. by rewrite lookup_total_insert_eq. }
  intros [|i] s; cbn [lookup list_lookup].
  - intros [= <-]. unfold allowed, rejected, remaining.
    cbn [after incoming request]. split; [rewrite Hb; do 2 f_equal; lia|].
    rewrite Hserve. cbn [res nextCalls resHeaders statusCode jsonBody].
    split; [intros _|lia]. split; [done|].
    rewrite lookup_insert_ne by done. rewrite lookup_insert_eq.
    do 2 f_equal. fold N. lia.
  - intros Hs.
    eapply (window_run _ _ _ 1) in Hs;
      [|by apply serve_wf|exact Hb|done|done].
    replace (1 + Z.of_nat i + 1) with (Z.of_nat (S i) + 1) in Hs by lia.
    replace (N - (1 + Z.of_nat i) - 1) with (N - 1 - Z.of_nat (S i)) in Hs by lia.
    replace (1 + Z.of_nat i) with (Z.of_nat (S i)) in Hs by lia.
    exact Hs.
Qed.
End window.

(** ** The key of a request *)

Lemma getClientIp_forwarded req s :
  forwardedFor req = Some s → s ≠ EmptyString →
  getClientIp req = JsString.trim (default EmptyString (head (JsString.split "," s))).
Proof.
  unfold forwardedFor, getClientIp. intros Hf Hs.
  assert (match headers req !! "x-forwarded-for"%string with
          | Some (HString s) => Some s
          | Some (HArray l) => head l
          | None => None
          end = Some s) as -> by (destruct (headers req !! _) as [[]|]; done).
  destruct s; [done|]. rewrite bool_decide_eq_true_2; [done|cbn; lia].
Qed.

Lemma getClientIp_address req :
  falsy (forwardedFor req) →
  getClientIp req =
    JsString.or_else (JsString.or_opt (ip req) (remoteAddress (socket req))) "unknown".
Proof.
  unfold forwardedFor, getClientIp. intros Hf.
  destruct (headers req !! "x-forwarded-for"%string) as [[s|l]|]; [| |done].
  - destruct Hf as [?| [= ->]]; done.
  - destruct Hf as [-> | ->]; done.
Qed.

(** * The claims *)

(** C1. For a limiter with effective [max = N] and window [W]: when a
    request of key [k] opens a window at [t0] (there is no bucket for [k],
    or it has expired), then among that request and the requests of [k]
    that follow while [t0 + W] has not passed, whatever other keys do and
    whenever the timer ticks in between, the first [N] are allowed (the
    handler calls [next] and sends nothing) and the [(N+1)]-th and every
    later one is rejected with status 429. *)
Theorem first_max_allowed_then_429 options k req0 rs0 t0 evs μ :
  reachable options μ →
  keyGenerator options req0 = k →
  opens μ k t0 →
  Forall (withinWindow options k (t0 + windowMs options)) evs →
  let log := servedFor options k (run options (Incoming req0 rs0 t0 :: evs) μ).2 in
  length log = S (length (requestsOf options k evs)) ∧
  ∀ (i : nat) s, log !! i = Some s →
    (Z.of_nat i < max options → allowed s) ∧
    (max options ≤ Z.of_nat i → rejected s ∧ statusCode (res (after s)) = 429).
Proof.
  intros Hreach Hk Ho Hall log.
  destruct (window_from_opening options k req0 rs0 t0 evs μ
              (reachable_wf _ _ Hreach) Hk Ho Hall) as [Hlen Hlog].
  split; [exact Hlen|]. intros i s Hs.
  destruct (Hlog i s Hs) as (_ & Hallow & Hrej). split.
  - intros Hi. by apply Hallow.
  - intros Hi. destruct (Hrej Hi) as [Hr _]. split; [done|]. apply Hr.
Qed.

(** The scenario of the specification: two requests per second, three
    requests of 1.2.3.4 within the second, with a request of another key
    and a timer tick in between. *)
Lemma first_max_allowed_then_429_witness :
  let options := Sample.two_per_second in
  let evs := [Incoming Sample.from_1234 Sample.blank 5100;
              Incoming Sample.from_5678 Sample.blank 5150;
              Tick 5200;
              Incoming Sample.from_1234 Sample.blank 5900] in
  let log := servedFor options "1.2.3.4"
               (run options (Incoming Sample.from_1234 Sample.blank 5000 :: evs)
                  Sample.created).2 in
  length log = S (length (requestsOf options "1.2.3.4" evs)) ∧
  ∀ (i : nat) s, log !! i = Some s →
    (Z.of_nat i < max options → allowed s) ∧
    (max options ≤ Z.of_nat i → rejected s ∧ statusCode (res (after s)) = 429).
Proof.
  apply (first_max_allowed_then_429 Sample.two_per_second "1.2.3.4"
           Sample.from_1234 Sample.blank 5000).
  - apply (reachable_created Sample.two_per_second ∅).
  - reflexivity.
  - left. reflexivity.
  - repeat constructor; vm_compute; intros; congruence || reflexivity.
Defined.

(** C2, as stated, fails: a rejected request does not increment the
    count. With one request allowed per second, the second request of
    1.2.3.4 within the second meets the bucket at count 1, is answered 429,
    and leaves the count at 1, not 2. *)
Lemma rejected_request_is_not_counted :
  let options := Sample.one_per_second None in
  let μ := mem (serve options Sample.from_1234 Sample.blank 5000 Sample.created) in
  let w := serve options Sample.from_1234 Sample.blank 5100 μ in
  bucketOf μ "1.2.3.4" = Some {| count := 1; resetAt := 6000 |} ∧
  5100 < 6000 ∧
  statusCode (res w) = 429 ∧
  bucketOf (mem w) "1.2.3.4" = Some {| count := 1; resetAt := 6000 |} ∧
  bucketOf (mem w) "1.2.3.4" ≠ Some {| count := 1 + 1; resetAt := 6000 |}.
Proof. vm_compute. split_and!; congruence || reflexivity. Qed.

(** C2, amended. The count of a bucket is 1 when the bucket is created; a
    later request of the key within the active window increments it by
    exactly 1 when the request is accepted, and leaves it as it is when the
    request is rejected with 429. *)
Theorem count_starts_at_1_and_counts_accepted options req rs now μ :
  let key := keyGenerator options req in
  let w := serve options req rs now μ in
  (opens μ key now →
     bucketOf (mem w) key = Some {| count := 1; resetAt := now + windowMs options |}) ∧
  (∀ b, bucketOf μ key = Some b → now < resetAt b → count b < max options →
     nextCalls w = 1%nat ∧
     bucketOf (mem w) key = Some {| count := count b + 1; resetAt := resetAt b |}) ∧
  (∀ b, bucketOf μ key = Some b → now < resetAt b → max options ≤ count b →
     statusCode (res w) = 429 ∧ nextCalls w = 0%nat ∧
     bucketOf (mem w) key = Some b).
Proof.
  intros key w. subst w. split_and!.
  - intros Ho. rewrite serve_opens by done. unfold bucketOf.
    cbn [mem buckets objects]. rewrite lookup_insert_eq. cbn.
    by rewrite lookup_total_insert_eq.
  - intros b (r & Hr & ->)%bucketOf_Some Hact Hroom.
    rewrite (serve_accepts _ _ _ _ _ r) by done. split; [done|]. unfold bucketOf.
    cbn [mem buckets objects]. rewrite lookup_insert_eq. cbn.
    by rewrite lookup_total_insert_eq.
  - intros b Hb Hact Hfull. by rewrite (serve_rejects _ _ _ _ _ b).
Qed.

(** An accepted request takes the count from 1 to 2. *)
Lemma count_starts_at_1_and_counts_accepted_witness :
  let options := Sample.two_per_second in
  let μ := mem (serve options Sample.from_1234 Sample.blank 5000 Sample.created) in
  let w := serve options Sample.from_1234 Sample.blank 5100 μ in
  bucketOf μ "1.2.3.4" = Some {| count := 1; resetAt := 6000 |} ∧
  nextCalls w = 1%nat ∧
  bucketOf (mem w) "1.2.3.4" = Some {| count := 2; resetAt := 6000 |}.
Proof.
  intros options μ w.
  assert (bucketOf μ "1.2.3.4" = Some {| count := 1; resetAt := 6000 |}) as Hb
    by (vm_compute; reflexivity).
  split; [exact Hb|].
  destruct (count_starts_at_1_and_counts_accepted options Sample.from_1234
              Sample.blank 5100 μ) as (_ & Hacc & _).
  apply (Hacc {| count := 1; resetAt := 6000 |}).
  - exact Hb.
  - cbn. lia.
  - vm_compute. reflexivity.
Defined.

(** C3, as stated, fails on the body: a configured message that is the
    empty string is not sent; the default text is. *)
Lemma empty_message_is_replaced_by_default :
  let options := Sample.one_per_second (Some EmptyString) in
  let μ := mem (serve options Sample.from_1234 Sample.blank 5000 Sample.created) in
  let w := serve options Sample.from_1234 Sample.blank 5100 μ in
  Options.message options = Some EmptyString ∧
  statusCode (res w) = 429 ∧
  jsonBody (res w)
    = Some {| error := "Too many requests. Please try again later." |} ∧
  jsonBody (res w) ≠ Some {| error := EmptyString |}.
Proof. vm_compute. split_and!; congruence || reflexivity. Qed.

(** C3, amended. A request whose key has an active bucket
    ([resetAt > now]) with [count >= max] is rejected: the handler sets
    [Retry-After = max(1, ceil((resetAt - now) / 1000))], which is at least
    1 (and here equal to the ceiling itself), [X-RateLimit-Limit = max],
    [X-RateLimit-Remaining = 0], [X-RateLimit-Reset = ceil(resetAt / 1000)],
    answers with status 429 and the body [{ error: message }], where the
    message is the configured one when that is a non-empty string and the
    default text otherwise, and does not call [next]. In every other case
    the handler calls [next] and leaves status and body alone: no other
    condition produces a 429. *)
Theorem rejection_429 options req rs now μ :
  let key := keyGenerator options req in
  let w := serve options req rs now μ in
  let header name := resHeaders (res w) !! name in
  (∀ b, bucketOf μ key = Some b → now < resetAt b → max options ≤ count b →
     let retryAfterSeconds :=
       Math.max 1 (Math.ceil (inject_Z (resetAt b - now) / 1000)) in
     header "Retry-After"%string = Some (String_ retryAfterSeconds) ∧
     1 ≤ retryAfterSeconds ∧
     retryAfterSeconds = Math.ceil (inject_Z (resetAt b - now) / 1000) ∧
     header "X-RateLimit-Limit"%string = Some (String_ (max options)) ∧
     header "X-RateLimit-Remaining"%string = Some (String_ 0) ∧
     header "X-RateLimit-Reset"%string
       = Some (String_ (Math.ceil (inject_Z (resetAt b) / 1000))) ∧
     statusCode (res w) = 429 ∧
     (∃ e, jsonBody (res w) = Some {| error := e |} ∧
           (∀ m, Options.message options = Some m → m ≠ EmptyString → e = m) ∧
           (falsy (Options.message options) →
              e = "Too many requests. Please try again later."%string)) ∧
     nextCalls w = 0%nat) ∧
  (¬ rejects options μ key now →
     nextCalls w = 1%nat ∧
     statusCode (res w) = statusCode rs ∧
     jsonBody (res w) = jsonBody rs).
Proof.
  intros key w header. subst w header. cbv beta. split.
  - intros b Hb Hact Hfull retry.
    rewrite (serve_rejects _ _ _ _ _ b) by done.
    cbn [res resHeaders statusCode jsonBody nextCalls].
    pose proof (ceil_div_1000_pos (resetAt b - now) ltac:(lia)) as Hceil.
    split_and!; try done.
    + by rewrite !lookup_insert_ne, lookup_insert_eq by done.
    + unfold retry, Math.max. lia.
    + unfold retry, Math.max. lia.
    + by rewrite !lookup_insert_ne, lookup_insert_eq by done.
    + by rewrite !lookup_insert_ne, lookup_insert_eq by done.
    + by rewrite lookup_insert_eq.
    + eexists. split; [done|]. split.
      * intros m -> Hm. by destruct m.
      * by intros [->| ->].
  - intros Hnot.
    destruct (handler_cases options μ key now)
      as [Ho|[Hrej|(b & (r & Hr & ->)%bucketOf_Some & ? & ?)]]; [|done|].
    + by rewrite serve_opens.
    + by rewrite (serve_accepts _ _ _ _ _ r).
Qed.

(** A rejection with a configured message, one second before the window
    ends. *)
Lemma rejection_429_witness :
  let options := Sample.one_per_second (Some "Slow down."%string) in
  let μ := mem (serve options Sample.from_1234 Sample.blank 5000 Sample.created) in
  let w := serve options Sample.from_1234 Sample.blank 5100 μ in
  resHeaders (res w) !! "Retry-After"%string = Some "1"%string ∧
  statusCode (res w) = 429 ∧
  jsonBody (res w) = Some {| error := "Slow down." |} ∧
  nextCalls w = 0%nat.
Proof.
  pose proof (proj1 (rejection_429 (Sample.one_per_second (Some "Slow down."%string))
    Sample.from_1234 Sample.blank 5100
    (mem (serve (Sample.one_per_second (Some "Slow down."%string))
            Sample.from_1234 Sample.blank 5000 Sample.created)))
    {| count := 1; resetAt := 6000 |}) as H.
  cbv zeta in H.
  destruct H as (Hretry & _ & _ & _ & _ & _ & Hstatus & (e & Hbody & He & _) & Hnext).
  - vm_compute. reflexivity.
  - cbn. lia.
  - vm_compute. congruence.
  - intros options μ w. subst options μ w. split_and!.
    + rewrite Hretry. reflexivity.
    + exact Hstatus.
    + rewrite Hbody. rewrite (He "Slow down."%string); [reflexivity|reflexivity|discriminate].
    + exact Hnext.
Defined.

(** C4. A request whose key has no bucket, or whose bucket has expired
    ([resetAt <= now]), gets the bucket [{count: 1, resetAt: now + windowMs}]
    in place of whatever was there, the headers [X-RateLimit-Limit = max],
    [X-RateLimit-Remaining = max - 1] and
    [X-RateLimit-Reset = ceil((now + windowMs) / 1000)], and is passed on to
    [next]; the count of an expired bucket plays no part. *)
Theorem expired_or_absent_opens_window options req rs now μ :
  let key := keyGenerator options req in
  let w := serve options req rs now μ in
  let header name := resHeaders (res w) !! name in
  (bucketOf μ key = None ∨ ∃ b, bucketOf μ key = Some b ∧ resetAt b ≤ now) →
  bucketOf (mem w) key = Some {| count := 1; resetAt := now + windowMs options |} ∧
  header "X-RateLimit-Limit"%string = Some (String_ (max options)) ∧
  header "X-RateLimit-Remaining"%string = Some (String_ (max options - 1)) ∧
  header "X-RateLimit-Reset"%string
    = Some (String_ (Math.ceil (inject_Z (now + windowMs options) / 1000))) ∧
  nextCalls w = 1%nat ∧
  statusCode (res w) = statusCode rs ∧
  jsonBody (res w) = jsonBody rs.
Proof.
  intros key w header Ho. subst w header. cbv beta.
  rewrite serve_opens by exact Ho.
  cbn [mem res resHeaders statusCode jsonBody nextCalls].
  split_and!; try done.
  - unfold bucketOf. cbn [buckets objects]. rewrite lookup_insert_eq. cbn.
    by rewrite lookup_total_insert_eq.
  - by rewrite !lookup_insert_ne, lookup_insert_eq by done.
  - by rewrite !lookup_insert_ne, lookup_insert_eq by done.
  - by rewrite lookup_insert_eq.
Qed.

(** The second scenario of the specification: two requests, then a third
    1100 ms after the first, which finds the bucket expired at count 2. *)
Lemma expired_or_absent_opens_window_witness :
  let options := Sample.two_per_second in
  let μ1 := mem (serve options Sample.from_1234 Sample.blank 5000 Sample.created) in
  let μ2 := mem (serve options Sample.from_1234 Sample.blank 5001 μ1) in
  let w := serve options Sample.from_1234 Sample.blank 6100 μ2 in
  bucketOf μ2 "1.2.3.4" = Some {| count := 2; resetAt := 6000 |} ∧
  bucketOf (mem w) "1.2.3.4" = Some {| count := 1; resetAt := 7100 |} ∧
  resHeaders (res w) !! "X-RateLimit-Remaining"%string = Some "1"%string ∧
  nextCalls w = 1%nat ∧
  statusCode (res w) = 200.
Proof.
  intros options μ1 μ2 w.
  assert (bucketOf μ2 "1.2.3.4" = Some {| count := 2; resetAt := 6000 |}) as Hb
    by (vm_compute; reflexivity).
  split; [exact Hb|].
  destruct (expired_or_absent_opens_window options Sample.from_1234 Sample.blank 6100 μ2)
    as (Hbucket & _ & Hrem & _ & Hnext & Hstatus & _).
  - right. exists {| count := 2; resetAt := 6000 |}. split; [exact Hb|cbn; lia].
  - split_and!; [exact Hbucket|exact Hrem|exact Hnext|exact Hstatus].
Defined.

(** C5. [getClientIp] prefers the first comma-separated field of the
    [x-forwarded-for] header, without its surrounding white space, when
    the header is there and is not empty; otherwise the address of the
    request, [req.ip] and after it the remote address of the socket;
    otherwise the string "unknown". The header ["9.9.9.9, 10.0.0.1"] gives
    the key ["9.9.9.9"]; no forwarding header and no address give
    ["unknown"]. *)
Theorem getClientIp_order_of_preference req :
  (∀ s, forwardedFor req = Some s → s ≠ EmptyString →
     ∃ f, firstField s f ∧ trimmed f (getClientIp req)) ∧
  (falsy (forwardedFor req) →
     (∀ a, ip req = Some a → a ≠ EmptyString → getClientIp req = a) ∧
     (falsy (ip req) →
        ∀ a, remoteAddress (socket req) = Some a → a ≠ EmptyString →
             getClientIp req = a) ∧
     (falsy (ip req) → falsy (remoteAddress (socket req)) →
        getClientIp req = "unknown"%string)) ∧
  (headers req !! "x-forwarded-for"%string = Some (HString "9.9.9.9, 10.0.0.1") →
     getClientIp req = "9.9.9.9"%string) ∧
  (headers req !! "x-forwarded-for"%string = None →
     ip req = None → remoteAddress (socket req) = None →
     getClientIp req = "unknown"%string).
Proof.
  split_and!.
  - intros s Hf Hs. rewrite (getClientIp_forwarded req s Hf Hs).
    destruct (head (JsString.split "," s)) as [f|] eqn:Hhead.
    + exists f. split; [by apply head_split_firstField|]. by apply trim_trimmed.
    + destruct (JsString.split "," s) eqn:Hsp; [|done].
      by apply split_nonempty in Hsp.
  - intros Hf. rewrite (getClientIp_address req Hf). split_and!.
    + intros a -> Ha. by destruct a.
    + intros Hip a -> Ha. destruct Hip as [-> | ->]; by destruct a.
    + by intros [-> | ->] [-> | ->].
  - intros Hh. rewrite (getClientIp_forwarded req "9.9.9.9, 10.0.0.1"); [done| |done].
    unfold forwardedFor. by rewrite Hh.
  - intros Hh Hip Hra. rewrite getClientIp_address.
    + by rewrite Hip, Hra.
    + left. unfold forwardedFor. by rewrite Hh.
Qed.

(** The forwarding header wins over the address of the peer. *)
Lemma getClientIp_order_of_preference_witness :
  let req := Sample.request_from (Some (HString "  9.9.9.9 , 10.0.0.1"))
               (Some "1.2.3.4"%string) None in
  getClientIp req = "9.9.9.9"%string ∧
  ∃ f, firstField "  9.9.9.9 , 10.0.0.1" f ∧ trimmed f (getClientIp req).
Proof.
  intros req. split; [reflexivity|].
  apply (proj1 (getClientIp_order_of_preference req)).
  - reflexivity.
  - discriminate.
Defined.

(** C6. Within one window of a key, from the request that opens it: the
    [X-RateLimit-Remaining] header of every response is [max - count]
    clamped below at 0, for the count the bucket then holds, so it is never
    negative; on the accepted requests it runs [max - 1], [max - 2], ...,
    [0], one less on each; on the rejected ones it is [0]. Outside any
    such run too, the header of a response is the numeral of a number that
    is not negative. *)
Theorem remaining_counts_down_to_zero options k req0 rs0 t0 evs μ :
  reachable options μ →
  keyGenerator options req0 = k →
  opens μ k t0 →
  Forall (withinWindow options k (t0 + windowMs options)) evs →
  let log := servedFor options k (run options (Incoming req0 rs0 t0 :: evs) μ).2 in
  (∀ (i : nat) s, log !! i = Some s →
     (∃ b, bucketOf (mem (after s)) k = Some b ∧
           remaining s = Some (String_ (Z.max 0 (max options - count b))) ∧
           0 ≤ Z.max 0 (max options - count b)) ∧
     (Z.of_nat i < max options →
        allowed s ∧ remaining s = Some (String_ (max options - 1 - Z.of_nat i))) ∧
     (max options ≤ Z.of_nat i → rejected s ∧ remaining s = Some (String_ 0))) ∧
  (∀ (i : nat) s s', log !! i = Some s → log !! S i = Some s' → allowed s' →
     ∃ v, remaining s = Some (String_ v) ∧ remaining s' = Some (String_ (v - 1)) ∧
          0 ≤ v - 1) ∧
  (∀ req rs now μ', ∃ v,
     resHeaders (res (serve options req rs now μ')) !! "X-RateLimit-Remaining"%string
       = Some (String_ v) ∧ 0 ≤ v).
Proof.
  intros Hreach Hk Ho Hall log.
  destruct (window_from_opening options k req0 rs0 t0 evs μ
              (reachable_wf _ _ Hreach) Hk Ho Hall) as [_ Hlog].
  fold log in Hlog.
  assert (1 ≤ max options) as HN by (unfold max, Math.max; lia).
  split_and!.
  - intros i s Hs. destruct (Hlog i s Hs) as (Hb & Hallow & Hrej).
    split_and!; [|done|done].
    eexists. split; [exact Hb|]. cbn [count]. split; [|lia].
    destruct (decide (Z.of_nat i < max options)) as [Hi|Hi].
    + destruct (Hallow Hi) as [_ ->]. do 2 f_equal. lia.
    + destruct (Hrej ltac:(lia)) as [_ ->]. change "0"%string with (String_ 0).
      do 2 f_equal. lia.
  - intros i s s' Hs Hs' Hok.
    destruct (Hlog i s Hs) as (_ & Hallow & _).
    destruct (Hlog (S i) s' Hs') as (_ & Hallow' & Hrej').
    assert (Z.of_nat (S i) < max options) as Hi'.
    { destruct (decide (Z.of_nat (S i) < max options)) as [|Hge]; [done|].
      destruct (Hrej' ltac:(lia)) as [[Hno _] _]. destruct Hok as [Hyes _]. congruence. }
    destruct (Hallow ltac:(lia)) as [_ Hv]. destruct (Hallow' Hi') as [_ Hv'].
    exists (max options - 1 - Z.of_nat i). split; [done|]. split; [|lia].
    rewrite Hv'. do 2 f_equal. lia.
  - intros req rs now μ'.
    destruct (handler_cases options μ' (keyGenerator options req) now)
      as [Hopen|[(b & Hb & ? & ?)|(b & (r & Hr & ->)%bucketOf_Some & ? & ?)]].
    + exists (max options - 1). rewrite serve_opens by done.
      cbn [res resHeaders]. split; [|lia].
      by rewrite lookup_insert_ne, lookup_insert_eq by done.
    + exists 0. rewrite (serve_rejects _ _ _ _ _ b) by done.
      cbn [res resHeaders]. split; [|lia].
      by rewrite lookup_insert_ne, lookup_insert_eq by done.
    + eexists. rewrite (serve_accepts _ _ _ _ _ r) by done.
      cbn [res resHeaders]. split.
      * by rewrite lookup_insert_ne, lookup_insert_eq by done.
      * unfold Math.max. lia.
Qed.

(** The first scenario of the specification: remaining 1, then 0, then a
    rejection at 0. *)
Lemma remaining_counts_down_to_zero_witness :
  let options := Sample.two_per_second in
  let evs := [Incoming Sample.from_1234 Sample.blank 5100;
              Incoming Sample.from_1234 Sample.blank 5900] in
  let log := servedFor options "1.2.3.4"
               (run options (Incoming Sample.from_1234 Sample.blank 5000 :: evs)
                  Sample.created).2 in
  remaining <$> log = [Some "1"%string; Some "0"%string; Some "0"%string] ∧
  ∀ (i : nat) s, log !! i = Some s →
    (Z.of_nat i < max options →
       allowed s ∧ remaining s = Some (String_ (max options - 1 - Z.of_nat i))) ∧
    (max options ≤ Z.of_nat i → rejected s ∧ remaining s = Some (String_ 0)).
Proof.
  intros options evs log. split; [vm_compute; reflexivity|].
  destruct (remaining_counts_down_to_zero Sample.two_per_second "1.2.3.4"
              Sample.from_1234 Sample.blank 5000 evs Sample.created) as (Hlog & _ & _).
  - apply (reachable_created Sample.two_per_second ∅).
  - reflexivity.
  - left. reflexivity.
  - repeat constructor; vm_compute; intros; reflexivity.
  - intros i s Hs. destruct (Hlog i s Hs) as (_ & Hallow & Hrej). by split.
Defined.

(** C7. The timer of a limiter fires every [min(windowMs, 60000)] ms, and
    each tick, at clock reading [now], deletes from the registry exactly
    the buckets whose [resetAt <= now]: such a bucket is gone afterwards, a
    bucket whose [resetAt] is still ahead stays as it is, under the same
    reference, and nothing is added; the bucket objects themselves are not
    modified. *)
Theorem sweep_deletes_exactly_the_expired options now μ :
  let limiter := createRateLimiter options in
  let μ' := (timerCallback limiter now μ).2 in
  timerDelay limiter = Z.min (windowMs options) 60000 ∧
  objects μ' = objects μ ∧
  ∀ k,
    (∀ b, bucketOf μ k = Some b → resetAt b ≤ now →
       bucketOf μ' k = None ∧ buckets μ' !! k = None) ∧
    (∀ b, bucketOf μ k = Some b → now < resetAt b →
       bucketOf μ' k = Some b ∧ buckets μ' !! k = buckets μ !! k) ∧
    (bucketOf μ k = None → bucketOf μ' k = None ∧ buckets μ' !! k = None).
Proof.
  intros limiter μ'. subst limiter μ'. cbn [createRateLimiter timerCallback timerDelay].
  split; [done|]. split; [apply sweep_objects|].
  intros k. split_and!.
  - intros b Hb Hexp. rewrite sweep_bucketOf, Hb, decide_True by done.
    split; [done|]. apply bucketOf_Some in Hb as (r & Hr & ->).
    by rewrite sweep_lookup, Hr, decide_True.
  - intros b Hb Hact. rewrite sweep_bucketOf, Hb, decide_False by lia.
    split; [done|]. apply bucketOf_Some in Hb as (r & Hr & ->).
    by rewrite sweep_lookup, Hr, decide_False by lia.
  - intros Hb. rewrite sweep_bucketOf, Hb. split; [done|].
    apply bucketOf_None in Hb. by rewrite sweep_lookup, Hb.
Qed.

(** Two buckets, one expired at the tick and one not: the tick removes
    the first and keeps the second. *)
Lemma sweep_deletes_exactly_the_expired_witness :
  let options := Sample.two_per_second in
  let μ1 := mem (serve options Sample.from_1234 Sample.blank 5000 Sample.created) in
  let μ2 := mem (serve options Sample.from_5678 Sample.blank 5500 μ1) in
  let μ' := (timerCallback (createRateLimiter options) 6000 μ2).2 in
  timerDelay (createRateLimiter options) = 1000 ∧
  bucketOf μ2 "1.2.3.4" = Some {| count := 1; resetAt := 6000 |} ∧
  bucketOf μ2 "5.6.7.8" = Some {| count := 1; resetAt := 6500 |} ∧
  bucketOf μ' "1.2.3.4" = None ∧
  bucketOf μ' "5.6.7.8" = Some {| count := 1; resetAt := 6500 |}.
Proof.
  intros options μ1 μ2 μ'.
  assert (bucketOf μ2 "1.2.3.4" = Some {| count := 1; resetAt := 6000 |}) as H1
    by (vm_compute; reflexivity).
  assert (bucketOf μ2 "5.6.7.8" = Some {| count := 1; resetAt := 6500 |}) as H2
    by (vm_compute; reflexivity).
  destruct (sweep_deletes_exactly_the_expired options 6000 μ2) as (Hdelay & _ & Hk).
  split; [rewrite Hdelay; reflexivity|]. split; [exact H1|]. split; [exact H2|].
  split.
  - apply (proj1 (Hk "1.2.3.4"%string) _ H1). cbn. lia.
  - apply (proj1 (proj2 (Hk "5.6.7.8"%string)) _ H2). cbn. lia.
Defined.

(** C8. A request whose key is [key] touches at most the registry entry of
    [key]: for every other key [k'], the presence of a bucket, the
    reference held, and the count and [resetAt] behind it are the same
    after the call as before; and the two keys never hold the same bucket
    object. *)
Theorem other_keys_are_untouched options req rs now μ k' :
  reachable options μ →
  k' ≠ keyGenerator options req →
  let key := keyGenerator options req in
  let w := serve options req rs now μ in
  buckets (mem w) !! k' = buckets μ !! k' ∧
  bucketOf (mem w) k' = bucketOf μ k' ∧
  (∀ r r', buckets μ !! key = Some r → buckets μ !! k' = Some r' → r ≠ r') ∧
  (∀ r r', buckets (mem w) !! key = Some r → buckets (mem w) !! k' = Some r' → r ≠ r').
Proof.
  intros Hreach Hne key w. subst w.
  pose proof (reachable_wf _ _ Hreach) as Hwf.
  pose proof (serve_wf options req rs now μ Hwf) as Hwf'.
  split_and!.
  - by apply serve_frame_lookup.
  - by apply serve_frame.
  - intros r r' Hr Hr' <-. apply Hne. by apply (proj2 Hwf k' key r).
  - intros r r' Hr Hr' <-. apply Hne. by apply (proj2 Hwf' k' key r).
Qed.

(** Two keys with a bucket each; a request of 1.2.3.4 leaves the bucket of
    5.6.7.8 as it was. *)
Lemma other_keys_are_untouched_witness :
  let options := Sample.two_per_second in
  let μ1 := mem (serve options Sample.from_1234 Sample.blank 5000 Sample.created) in
  let μ2 := mem (serve options Sample.from_5678 Sample.blank 5050 μ1) in
  let w := serve options Sample.from_1234 Sample.blank 5100 μ2 in
  bucketOf μ2 "5.6.7.8" = Some {| count := 1; resetAt := 6050 |} ∧
  bucketOf (mem w) "1.2.3.4" = Some {| count := 2; resetAt := 6000 |} ∧
  bucketOf (mem w) "5.6.7.8" = bucketOf μ2 "5.6.7.8".
Proof.
  intros options μ1 μ2 w.
  split; [vm_compute; reflexivity|]. split; [vm_compute; reflexivity|].
  apply (other_keys_are_untouched options Sample.from_1234 Sample.blank 5100 μ2 "5.6.7.8").
  - apply reachable_served, reachable_served.
    apply (reachable_created Sample.two_per_second ∅).
  - vm_compute. discriminate.
Defined.

(** C9. A request that is rejected with 429 leaves the registry as it
    was: the same map of keys, the same bucket objects with the same
    counts and [resetAt]; the rejection only writes to the response. *)
Theorem rejection_leaves_registry_unchanged options req rs now μ :
  let w := serve options req rs now μ in
  rejected {| request := req; incoming := rs; after := w |} →
  mem w = μ ∧
  rejects options μ (keyGenerator options req) now ∧
  ∀ k, bucketOf (mem w) k = bucketOf μ k ∧ buckets (mem w) !! k = buckets μ !! k.
Proof.
  intros w (Hnext & _ & _). cbn [after] in Hnext. subst w.
  destruct (handler_cases options μ (keyGenerator options req) now)
    as [Ho|[Hrej|(b & (r & Hr & ->)%bucketOf_Some & ? & ?)]].
  - rewrite serve_opens in Hnext by done. done.
  - destruct Hrej as (b & Hb & ? & ?).
    rewrite (serve_rejects _ _ _ _ _ b) by done. cbn [mem].
    split; [done|]. split; [|done]. by exists b.
  - rewrite (serve_accepts _ _ _ _ _ r) in Hnext by done. done.
Qed.

(** The third request of the first scenario is rejected and changes
    nothing. *)
Lemma rejection_leaves_registry_unchanged_witness :
  let options := Sample.two_per_second in
  let μ1 := mem (serve options Sample.from_1234 Sample.blank 5000 Sample.created) in
  let μ2 := mem (serve options Sample.from_1234 Sample.blank 5100 μ1) in
  let w := serve options Sample.from_1234 Sample.blank 5900 μ2 in
  statusCode (res w) = 429 ∧ mem w = μ2.
Proof.
  intros options μ1 μ2 w. split; [vm_compute; reflexivity|].
  apply (rejection_leaves_registry_unchanged options Sample.from_1234 Sample.blank 5900 μ2).
  vm_compute. split_and!; [reflexivity|reflexivity|by eexists].
Defined.

(** C10. When the [x-forwarded-for] header is a non-empty string whose
    first comma-separated field is empty once trimmed, [getClientIp]
    returns the empty string, whatever [req.ip] and the remote address of
    the socket are, and not ["unknown"]; a limiter with the default key
    derivation then counts the request in the bucket of the key [""]. *)
Theorem blank_forwarded_for_gives_empty_key req s f :
  headers req !! "x-forwarded-for"%string = Some (HString s) →
  s ≠ EmptyString →
  firstField s f →
  trimmed f EmptyString →
  getClientIp req = EmptyString ∧
  ∀ options, Options.keyGenerator options = None →
    keyGenerator options req = EmptyString ∧
    ∀ rs now μ, is_Some (bucketOf (mem (serve options req rs now μ)) EmptyString).
Proof.
  intros Hh Hs Hf%head_split_firstField Ht%trim_trimmed.
  assert (getClientIp req = EmptyString) as Hkey.
  { rewrite (getClientIp_forwarded req s); [|unfold forwardedFor; by rewrite Hh|done].
    by rewrite Hf. }
  split; [done|]. intros options Hgen.
  assert (keyGenerator options req = EmptyString) as Hk
    by (unfold keyGenerator; by rewrite Hgen).
  split; [done|]. intros rs now μ. rewrite <- Hk. apply serve_bucket_exists.
Qed.

(** Two peers that both send a blank forwarding header are counted
    together: the second request finds the bucket of [""] at count 1 and
    takes it to 2. *)
Lemma blank_forwarded_for_gives_empty_key_witness :
  let options := Sample.two_per_second in
  let req1 := Sample.request_from (Some (HString " ")) (Some "1.2.3.4"%string) None in
  let req2 := Sample.request_from (Some (HString " , 9.9.9.9")) (Some "5.6.7.8"%string) None in
  let μ1 := mem (serve options req1 Sample.blank 5000 Sample.created) in
  let μ2 := mem (serve options req2 Sample.blank 5100 μ1) in
  getClientIp req1 = EmptyString ∧ getClientIp req2 = EmptyString ∧
  bucketOf μ2 EmptyString = Some {| count := 2; resetAt := 6000 |} ∧
  bucketOf μ2 "1.2.3.4" = None ∧ bucketOf μ2 "5.6.7.8" = None.
Proof.
  intros options req1 req2 μ1 μ2.
  split; [|split; [|vm_compute; split_and!; reflexivity]].
  - apply (blank_forwarded_for_gives_empty_key req1 " " " ").
    + reflexivity.
    + discriminate.
    + split; [reflexivity|by left].
    + split; [split; discriminate|]. exists " "%string, EmptyString. by split_and!.
  - apply (blank_forwarded_for_gives_empty_key req2 " , 9.9.9.9" " ").
    + reflexivity.
    + discriminate.
    + split; [reflexivity|]. right. by exists " 9.9.9.9"%string.
    + split; [split; discriminate|]. exists " "%string, EmptyString. by split_and!.
Defined.

(** * Further properties of the limiter *)

Lemma Mem_eq (μ1 μ2 : Mem) :
  buckets μ1 = buckets μ2 → objects μ1 = objects μ2 → μ1 = μ2.
Proof. destruct μ1, μ2. cbn. by intros -> ->. Qed.

Lemma max_floor options : 1 ≤ max options.
Proof. unfold max, Math.max. lia. Qed.

Lemma windowMs_floor options : 1000 ≤ windowMs options.
Proof. unfold windowMs, Math.max. lia. Qed.

(** What a call does to the caller's bucket, in the three cases. *)
Lemma serve_bucketOf options req rs now μ :
  let key := keyGenerator options req in
  let w := serve options req rs now μ in
  (opens μ key now →
     bucketOf (mem w) key = Some {| count := 1; resetAt := now + windowMs options |}) ∧
  (∀ b, bucketOf μ key = Some b → now < resetAt b → max options ≤ count b →
     bucketOf (mem w) key = Some b) ∧
  (∀ b, bucketOf μ key = Some b → now < resetAt b → count b < max options →
     bucketOf (mem w) key = Some {| count := count b + 1; resetAt := resetAt b |}).
Proof.
  intros key w. subst w. split_and!.
  - intros Ho. rewrite serve_opens by done. unfold bucketOf.
    cbn [mem buckets objects]. rewrite lookup_insert_eq. cbn.
    by rewrite lookup_total_insert_eq.
  - intros b Hb Hact Hfull. by rewrite (serve_rejects _ _ _ _ _ b).
  - intros b (r & Hr & ->)%bucketOf_Some Hact Hroom.
    rewrite (serve_accepts _ _ _ _ _ r) by done. unfold bucketOf.
    cbn [mem buckets objects]. rewrite lookup_insert_eq. cbn.
    by rewrite lookup_total_insert_eq.
Qed.

(** X1. In every registry a limiter can reach, every bucket holds a count
    between 1 and the effective [max]: a bucket is created at 1, is
    incremented only while its count is below [max], and is never
    decremented. *)
Theorem count_stays_between_1_and_max options μ k b :
  reachable options μ →
  bucketOf μ k = Some b →
  1 ≤ count b ≤ max options.
Proof.
  intros Hreach. revert k b.
  induction Hreach as [h|μ req rs now Hreach IH|μ now Hreach IH]; intros k b.
  - unfold bucketOf. cbn. by rewrite lookup_empty.
  - pose proof (reachable_wf _ _ Hreach) as Hwf.
    pose proof (max_floor options) as HN.
    destruct (decide (k = keyGenerator options req)) as [->|Hne].
    + destruct (serve_bucketOf options req rs now μ) as (Hopen & Hrej & Hacc).
      destruct (handler_cases options μ (keyGenerator options req) now)
        as [Ho|[(b0 & Hb0 & ? & ?)|(b0 & Hb0 & ? & ?)]].
      * rewrite (Hopen Ho). intros [= <-]. cbn. lia.
      * rewrite (Hrej b0) by done. intros [= <-]. by apply (IH _ _ Hb0).
      * rewrite (Hacc b0) by done. intros [= <-]. cbn.
        pose proof (IH _ _ Hb0). lia.
    + rewrite serve_frame by done. apply IH.
  - cbn [createRateLimiter timerCallback]. rewrite sweep_bucketOf.
    destruct (bucketOf μ k) as [b0|] eqn:Hb0; [|done].
    case_decide; [done|]. intros [= <-]. by apply (IH _ _ Hb0).
Qed.

(** After three requests against a limit of two the count is 2. *)
Lemma count_stays_between_1_and_max_witness :
  let options := Sample.two_per_second in
  let μ1 := mem (serve options Sample.from_1234 Sample.blank 5000 Sample.created) in
  let μ2 := mem (serve options Sample.from_1234 Sample.blank 5100 μ1) in
  let μ3 := mem (serve options Sample.from_1234 Sample.blank 5200 μ2) in
  bucketOf μ3 "1.2.3.4" = Some {| count := 2; resetAt := 6000 |} ∧
  1 ≤ 2 ≤ max options.
Proof.
  intros options μ1 μ2 μ3.
  assert (bucketOf μ3 "1.2.3.4" = Some {| count := 2; resetAt := 6000 |}) as Hb
    by (vm_compute; reflexivity).
  split; [exact Hb|].
  apply (count_stays_between_1_and_max options μ3 "1.2.3.4"
           {| count := 2; resetAt := 6000 |}); [|exact Hb].
  do 3 apply reachable_served. apply (reachable_created options ∅).
Defined.

(** X2. Every response, accepted or rejected, carries in
    [X-RateLimit-Reset] the second in which the caller's bucket, as the
    call leaves it, resets: [ceil(resetAt / 1000)]; that bucket is still
    active, and the advertised second lies after the time of the call. *)
Theorem reset_header_is_ahead_of_now options req rs now μ :
  let key := keyGenerator options req in
  let w := serve options req rs now μ in
  ∃ b, bucketOf (mem w) key = Some b ∧
       now < resetAt b ∧
       resHeaders (res w) !! "X-RateLimit-Reset"%string
         = Some (String_ (Math.ceil (inject_Z (resetAt b) / 1000))) ∧
       now < 1000 * Math.ceil (inject_Z (resetAt b) / 1000).
Proof.
  intros key w. subst w.
  destruct (serve_bucketOf options req rs now μ) as (Hopen & Hrej & Hacc).
  pose proof (windowMs_floor options) as HW.
  destruct (handler_cases options μ key now)
    as [Ho|[(b0 & Hb0 & ? & ?)|(b0 & Hb0 & ? & ?)]].
  - eexists. split; [by apply Hopen|]. cbn [resetAt].
    pose proof (ceil_div_1000_spec (now + windowMs options)).
    rewrite serve_opens by done. cbn [res resHeaders].
    rewrite lookup_insert_eq. split_and!; [lia|done|lia].
  - exists b0. split; [by apply Hrej|].
    pose proof (ceil_div_1000_spec (resetAt b0)).
    rewrite (serve_rejects _ _ _ _ _ b0) by done. cbn [res resHeaders].
    rewrite lookup_insert_eq. split_and!; [lia|done|lia].
  - eexists. split; [by apply (Hacc b0)|]. cbn [resetAt].
    pose proof (ceil_div_1000_spec (resetAt b0)).
    apply bucketOf_Some in Hb0 as (r & Hr & ->).
    rewrite (serve_accepts _ _ _ _ _ r) by done. cbn [res resHeaders].
    rewrite lookup_insert_eq. split_and!; [lia|done|lia].
Qed.

(** Events that are no request of [k] leave [k]'s bucket alone or, at a
    tick, delete it. *)
Lemma run_without_requests_of options k evs : ∀ μ,
  wf μ →
  Forall (λ ev, ¬ isRequestOf options k ev) evs →
  wf (run options evs μ).1 ∧
  (bucketOf (run options evs μ).1 k = bucketOf μ k ∨
   bucketOf (run options evs μ).1 k = None).
Proof.
  induction evs as [|[req rs now|now] evs IH]; intros μ Hwf Hall.
  - by split; [|left].
  - apply Forall_cons in Hall as [Hne Hall]. cbn [isRequestOf] in Hne.
    cbn [run]. destruct (run options evs _) as [μ' log] eqn:Hrun. cbn [fst].
    destruct (IH (mem (serve options req rs now μ))
                (serve_wf options req rs now μ Hwf) Hall) as [Hwf' Hb].
    rewrite Hrun in Hwf', Hb. cbn [fst] in Hwf', Hb.
    split; [done|]. rewrite serve_frame in Hb by (done || by intros ->). done.
  - apply Forall_cons in Hall as [_ Hall]. cbn [run].
    destruct (IH (sweep now μ).2 (sweep_wf now μ Hwf) Hall) as [Hwf' Hb].
    split; [done|]. rewrite sweep_bucketOf in Hb.
    destruct (bucketOf μ k) as [b|]; [|destruct Hb; by right].
    case_decide; [destruct Hb; by right|done].
Qed.

(** X3. Waiting the advertised [Retry-After] is enough: when a request of
    a key is rejected with [Retry-After: v], a request of the same key
    made [1000 * v] ms later or more, whatever other keys did and whenever
    the timer ticked in between, opens a new window: it is allowed, at
    count 1, with [max - 1] remaining. *)
Theorem waiting_retry_after_is_enough options k req rs now μ v evs req' rs' now' :
  reachable options μ →
  keyGenerator options req = k →
  keyGenerator options req' = k →
  let w := serve options req rs now μ in
  rejected {| request := req; incoming := rs; after := w |} →
  resHeaders (res w) !! "Retry-After"%string = Some (String_ v) →
  Forall (λ ev, ¬ isRequestOf options k ev) evs →
  now + 1000 * v ≤ now' →
  let w' := serve options req' rs' now' (run options evs (mem w)).1 in
  let s' := {| request := req'; incoming := rs'; after := w' |} in
  allowed s' ∧
  bucketOf (mem w') k = Some {| count := 1; resetAt := now' + windowMs options |} ∧
  remaining s' = Some (String_ (max options - 1)).
Proof.
  intros Hreach Hk Hk' w (Hnext & _ & _) Hretry Hothers Hwait w' s'.
  subst w w' s'. cbn [after] in Hnext.
  pose proof (reachable_wf _ _ Hreach) as Hwf.
  assert (∃ b, bucketOf (mem (serve options req rs now μ)) k = Some b ∧
               resetAt b ≤ now') as (b & Hb & Hexp).
  { destruct (handler_cases options μ (keyGenerator options req) now)
      as [Ho|[(b & Hb & Hact & Hfull)|(b & (r & Hr & ->)%bucketOf_Some & ? & ?)]].
    - rewrite serve_opens in Hnext by done. done.
    - rewrite (serve_rejects _ _ _ _ _ b) in Hretry |- * by done.
      cbn [mem res resHeaders] in Hretry |- *.
      rewrite !lookup_insert_ne, lookup_insert_eq in Hretry by done.
      injection Hretry as Hv%String_inj. exists b. rewrite <- Hk. split; [done|].
      pose proof (ceil_div_1000_spec (resetAt b - now)).
      unfold Math.max in Hv. lia.
    - rewrite (serve_accepts _ _ _ _ _ r) in Hnext by done. done. }
  destruct (run_without_requests_of options k evs _
              (serve_wf options req rs now μ Hwf) Hothers) as [_ Hafter].
  set (μ' := (run options evs (mem (serve options req rs now μ))).1) in *.
  assert (opens μ' (keyGenerator options req') now') as Ho.
  { rewrite Hk'. destruct Hafter as [Heq|Hnone]; [right|by left].
    exists b. by rewrite Heq. }
  unfold allowed, remaining. cbn [after incoming].
  destruct (serve_bucketOf options req' rs' now' μ') as (Hopen & _ & _).
  rewrite <- Hk' at 1. rewrite (Hopen Ho).
  rewrite serve_opens by done. cbn [res nextCalls resHeaders statusCode jsonBody].
  split_and!; try done.
  by rewrite lookup_insert_ne, lookup_insert_eq by done.
Qed.

(** Rejected at 5100 with [Retry-After: 1]; after a tick and a request of
    another key, the request at 6100 is allowed. *)
Lemma waiting_retry_after_is_enough_witness :
  let options := Sample.one_per_second None in
  let μ := mem (serve options Sample.from_1234 Sample.blank 5000 Sample.created) in
  let w := serve options Sample.from_1234 Sample.blank 5100 μ in
  let evs := [Tick 6000; Incoming Sample.from_5678 Sample.blank 6050] in
  let w' := serve options Sample.from_1234 Sample.blank 6100
              (run options evs (mem w)).1 in
  statusCode (res w) = 429 ∧
  resHeaders (res w) !! "Retry-After"%string = Some "1"%string ∧
  allowed {| request := Sample.from_1234; incoming := Sample.blank; after := w' |}.
Proof.
  intros options μ w evs w'.
  split; [vm_compute; reflexivity|]. split; [vm_compute; reflexivity|].
  apply (waiting_retry_after_is_enough options "1.2.3.4" Sample.from_1234
           Sample.blank 5100 μ 1 evs Sample.from_1234 Sample.blank 6100).
  - apply reachable_served. apply (reachable_created options ∅).
  - reflexivity.
  - reflexivity.
  - vm_compute. split_and!; [reflexivity|reflexivity|by eexists].
  - vm_compute. reflexivity.
  - repeat constructor; vm_compute; tauto || congruence.
  - lia.
Defined.



(** X5. Timer ticks compose: a tick at [t1] followed by a tick at [t2]
    leaves the registry a single tick at the later of the two times would
    leave; so repeating a tick changes nothing more, and the order of two
    ticks does not matter. *)
Theorem ticks_compose now1 now2 μ :
  (sweep now2 (sweep now1 μ).2).2 = (sweep (Z.max now1 now2) μ).2 ∧
  (sweep now1 (sweep now1 μ).2).2 = (sweep now1 μ).2 ∧
  (sweep now2 (sweep now1 μ).2).2 = (sweep now1 (sweep now2 μ).2).2.
Proof.
  assert (∀ t1 t2, (sweep t2 (sweep t1 μ).2).2 = (sweep (Z.max t1 t2) μ).2) as Hmax.
  { intros t1 t2. apply Mem_eq; [|by rewrite !sweep_objects].
    apply map_eq. intros k. rewrite !sweep_lookup, !sweep_objects.
    destruct (buckets μ !! k) as [r|]; [|done].
    repeat case_decide; (done || lia). }
  split_and!.
  - apply Hmax.
  - rewrite Hmax. by rewrite Z.max_id.
  - rewrite !Hmax. by rewrite Z.max_comm.
Qed.

(** X6. A tick that happened at or before the time of a request never
    changes what the request gets: the response, the call of [next] and
    the caller's bucket after the call are the same with the tick as
    without it. *)
Theorem past_tick_does_not_change_the_answer options req rs now t μ :
  t ≤ now →
  let key := keyGenerator options req in
  let w := serve options req rs now μ in
  let w' := serve options req rs now (sweep t μ).2 in
  res w' = res w ∧
  nextCalls w' = nextCalls w ∧
  bucketOf (mem w') key = bucketOf (mem w) key.
Proof.
  intros Ht key w w'. subst key w w'.
  destruct (serve_bucketOf options req rs now μ) as (Hopen & Hrej & Hacc).
  destruct (serve_bucketOf options req rs now (sweep t μ).2) as (Hopen' & Hrej' & Hacc').
  pose proof (sweep_bucketOf t μ (keyGenerator options req)) as Hswept.
  destruct (handler_cases options μ (keyGenerator options req) now)
    as [Ho|[(b & Hb & Hact & Hfull)|(b & Hb & Hact & Hroom)]].
  - assert (opens (sweep t μ).2 (keyGenerator options req) now) as Ho'.
    { destruct Ho as [Hn|(b & Hb & Hexp)].
      - left. by rewrite Hswept, Hn.
      - rewrite Hb in Hswept. case_decide; [by left|right; eauto]. }
    rewrite (Hopen Ho), (Hopen' Ho'). by rewrite !serve_opens by done.
  - rewrite Hb, decide_False in Hswept by lia.
    rewrite (Hrej b), (Hrej' b) by done.
    by rewrite !(serve_rejects _ _ _ _ _ b) by done.
  - rewrite Hb, decide_False in Hswept by lia.
    rewrite (Hacc b), (Hacc' b) by done.
    apply bucketOf_Some in Hb as (r & Hr & ->).
    assert (buckets (sweep t μ).2 !! keyGenerator options req = Some r) as Hr'.
    { rewrite sweep_lookup, Hr. by rewrite decide_False by lia. }
    rewrite (serve_accepts _ _ _ _ μ r) by done.
    rewrite (serve_accepts _ _ _ _ (sweep t μ).2 r)
      by (done || (rewrite sweep_objects; done)).
    by rewrite sweep_objects.
Qed.

(** The bucket of 1.2.3.4 expires at 6000 and is swept there; the request
    at 6100 is answered as it would have been without the tick. *)
Lemma past_tick_does_not_change_the_answer_witness :
  let options := Sample.two_per_second in
  let μ := mem (serve options Sample.from_1234 Sample.blank 5000 Sample.created) in
  bucketOf (sweep 6000 μ).2 "1.2.3.4" = None ∧
  res (serve options Sample.from_1234 Sample.blank 6100 (sweep 6000 μ).2)
    = res (serve options Sample.from_1234 Sample.blank 6100 μ).
Proof.
  intros options μ. split; [vm_compute; reflexivity|].
  apply (past_tick_does_not_change_the_answer options Sample.from_1234
           Sample.blank 6100 6000 μ). lia.
Defined.

(** X7. A call never removes a key from the registry and adds at most
    the caller's: the keys after the call are the keys before it together
    with the caller's key. Expired buckets of other keys stay until the
    timer ticks. *)
Theorem call_adds_at_most_the_callers_key options req rs now μ :
  let w := serve options req rs now μ in
  dom (buckets (mem w)) = {[ keyGenerator options req ]} ∪ dom (buckets μ) ∧
  (size (buckets (mem w)) ≤ S (size (buckets μ)))%nat ∧
  (size (buckets μ) ≤ size (buckets (mem w)))%nat.
Proof.
  intros w.
  assert (buckets (mem w) = buckets μ ∨
          ∃ r, buckets (mem w) = <[keyGenerator options req := r]> (buckets μ)) as Hw.
  { subst w.
    destruct (handler_cases options μ (keyGenerator options req) now)
      as [Ho|[(b & Hb & ? & ?)|(b & (r & Hr & ->)%bucketOf_Some & ? & ?)]].
    - rewrite serve_opens by done. right. by eexists.
    - rewrite (serve_rejects _ _ _ _ _ b) by done. by left.
    - rewrite (serve_accepts _ _ _ _ _ r) by done. right. by eexists. }
  pose proof (serve_bucket_exists options req rs now μ) as [b Hb].
  fold w in Hb. apply bucketOf_Some in Hb as (r' & Hr' & _).
  destruct Hw as [Heq|[r Heq]].
  - rewrite Heq in Hr' |- *. split_and!; [|lia|lia].
    apply elem_of_dom_2 in Hr'. symmetry. apply subseteq_union_1_L.
    by apply singleton_subseteq_l.
  - rewrite Heq. rewrite dom_insert_L. split; [done|].
    destruct (buckets μ !! keyGenerator options req) as [r0|] eqn:Hk.
    + rewrite map_size_insert_Some by done. lia.
    + rewrite map_size_insert_None by done. lia.
Qed.


(** ** Two windows in a row *)

Lemma run_app options evs1 evs2 μ :
  run options (evs1 ++ evs2) μ =
    ((run options evs2 (run options evs1 μ).1).1,
     (run options evs1 μ).2 ++ (run options evs2 (run options evs1 μ).1).2).
Proof.
  revert μ. induction evs1 as [|[req rs now|now] evs1 IH]; intros μ.
  - cbn. by destruct (run options evs2 μ).
  - cbn [app run]. rewrite IH. by destruct (run options evs1 _).
  - cbn [app run]. apply IH.
Qed.

Lemma run_wf options evs μ : wf μ → wf (run options evs μ).1.
Proof.
  revert μ. induction evs as [|[req rs now|now] evs IH]; intros μ Hwf; [done| |].
  - cbn [run]. specialize (IH _ (serve_wf options req rs now μ Hwf)).
    by destruct (run options evs _).
  - cbn [run]. apply IH. by apply sweep_wf.
Qed.

Lemma servedFor_all options k evs μ :
  Forall (isRequestOf options k) evs →
  servedFor options k (run options evs μ).2 = (run options evs μ).2.
Proof.
  revert μ. induction evs as [|[req rs now|now] evs IH]; intros μ Hall; [done| |].
  - apply Forall_cons in Hall as [Hk Hall]. cbn [isRequestOf] in Hk.
    rewrite run_incoming. unfold servedFor. rewrite filter_cons_True by done.
    f_equal. by apply IH.
  - apply Forall_cons in Hall as [[] _].
Qed.

Lemma requestsOf_all options k evs :
  Forall (isRequestOf options k) evs → requestsOf options k evs = evs.
Proof.
  unfold requestsOf. induction 1 as [|ev evs Hev _ IH]; [done|].
  rewrite filter_cons_True by done. by rewrite IH.
Qed.

(** The bucket of [k] at the end of a run within its window. *)
Lemma window_final options k R evs : ∀ μ c,
  wf μ →
  bucketOf μ k = Some {| count := c; resetAt := R |} →
  c ≤ max options →
  Forall (withinWindow options k R) evs →
  bucketOf (run options evs μ).1 k
    = Some {| count := Z.min (c + Z.of_nat (length (requestsOf options k evs)))
                         (max options);
              resetAt := R |}.
Proof.
  induction evs as [|[req rs now|now] evs IH]; intros μ c Hwf Hb Hc Hall.
  - cbn. rewrite Hb. do 2 f_equal. lia.
  - apply Forall_cons in Hall as [Hnow Hall]. cbn [withinWindow] in Hnow.
    assert ((run options (Incoming req rs now :: evs) μ).1
            = (run options evs (mem (serve options req rs now μ))).1) as ->
      by (cbn [run]; by destruct (run options evs _)).
    pose proof (serve_wf options req rs now μ Hwf) as Hwf'.
    unfold requestsOf.
    destruct (decide (keyGenerator options req = k)) as [Hk|Hk].
    + specialize (Hnow Hk). rewrite filter_cons_True by done. cbn [length].
      destruct (serve_bucketOf options req rs now μ) as (_ & Hrej & Hacc).
      rewrite Hk in Hrej, Hacc.
      destruct (decide (c < max options)) as [Hroom|Hfull].
      * rewrite (IH _ (c + 1)); [| done | by rewrite (Hacc _ Hb) | lia | done].
        do 2 f_equal. unfold requestsOf. lia.
      * rewrite (IH _ c); [| done | by rewrite (Hrej _ Hb) by (cbn; lia) | lia | done].
        do 2 f_equal. unfold requestsOf. lia.
    + rewrite filter_cons_False by done.
      apply IH; [done| |done|done]. by rewrite serve_frame.
  - apply Forall_cons in Hall as [Hnow Hall]. cbn [withinWindow] in Hnow.
    cbn [run]. unfold requestsOf. rewrite filter_cons_False by (cbn; tauto).
    apply IH; [by apply sweep_wf| |done|done].
    rewrite sweep_bucketOf, Hb. cbn [resetAt]. by rewrite decide_False by lia.
Qed.

(** X9. The window is fixed, not sliding: a key that opens a window at
    [t0] can have [max] requests allowed in it, the last [max - 1] of
    them at any time [t] before the window ends, and [max] more allowed
    from the moment [t0 + windowMs] on; with [t] one millisecond before
    the end, [2 * max - 1] requests are allowed within one millisecond. *)
Theorem burst_across_the_window_boundary options k req rs t0 t μ :
  reachable options μ →
  keyGenerator options req = k →
  opens μ k t0 →
  t0 ≤ t < t0 + windowMs options →
  let n := Z.to_nat (max options) in
  let R := t0 + windowMs options in
  let evs := Incoming req rs t0 :: replicate (n - 1) (Incoming req rs t)
               ++ replicate n (Incoming req rs R) in
  let log := (run options evs μ).2 in
  length log = (2 * n)%nat ∧ Forall allowed log.
Proof.
  intros Hreach Hk Ho Ht n R evs log. subst log evs.
  pose proof (max_floor options) as HN.
  pose proof (windowMs_floor options) as HW.
  pose proof (reachable_wf _ _ Hreach) as Hwf.
  assert (∃ m, n = S m) as [m Hn] by (exists (n - 1)%nat; lia).
  assert (Z.of_nat n = max options) as HnN by lia.
  set (evs1 := replicate (n - 1) (Incoming req rs t)).
  set (evs2 := replicate m (Incoming req rs R)).
  assert (Forall (isRequestOf options k) evs1 ∧ Forall (isRequestOf options k) evs2)
    as [Hall1 Hall2] by (split; apply Forall_replicate; exact Hk).
  assert (Forall (withinWindow options k R) evs1) as Hin1
    by (apply Forall_replicate; cbn; lia).
  assert (Forall (withinWindow options k (R + windowMs options)) evs2) as Hin2
    by (apply Forall_replicate; cbn; lia).
  assert (length (requestsOf options k evs1) = (n - 1)%nat) as Hlen1.
  { rewrite requestsOf_all by done. apply length_replicate. }
  assert (length (requestsOf options k evs2) = m) as Hlen2.
  { rewrite requestsOf_all by done. apply length_replicate. }
  change (Incoming req rs t0 :: evs1 ++ replicate n (Incoming req rs R))
    with ((Incoming req rs t0 :: evs1) ++ replicate n (Incoming req rs R)).
  rewrite Hn. cbn [replicate]. fold evs2. rewrite run_app. cbn [snd].
  set (μ1 := (run options (Incoming req rs t0 :: evs1) μ).1).
  (* the first window *)
  destruct (window_from_opening options k req rs t0 evs1 μ Hwf Hk Ho Hin1)
    as [Hl1 Hlog1].
  rewrite servedFor_all in Hl1, Hlog1 by (by constructor).
  (* the registry between the two windows *)
  assert (wf μ1) as Hwf1 by (by apply run_wf).
  assert (∃ c, bucketOf μ1 k = Some {| count := c; resetAt := R |}) as [c Hb1].
  { subst μ1.
    assert ((run options (Incoming req rs t0 :: evs1) μ).1
            = (run options evs1 (mem (serve options req rs t0 μ))).1) as ->
      by (cbn [run]; by destruct (run options evs1 _)).
    destruct (serve_bucketOf options req rs t0 μ) as (Hopen & _ & _).
    rewrite Hk in Hopen. eexists.
    apply (window_final options k R evs1 _ 1);
      [by apply serve_wf|by apply Hopen|lia|done]. }
  assert (opens μ1 k R) as Ho1.
  { right. eexists. split; [exact Hb1|]. cbn. lia. }
  (* the second window *)
  destruct (window_from_opening options k req rs R evs2 μ1 Hwf1 Hk Ho1 Hin2)
    as [Hl2 Hlog2].
  rewrite servedFor_all in Hl2, Hlog2 by (by constructor).
  split.
  - rewrite length_app, Hl1, Hl2, Hlen1, Hlen2. lia.
  - apply Forall_app. split; apply Forall_lookup; intros i s Hs.
    + apply (Hlog1 i s Hs). apply lookup_lt_Some in Hs.
      rewrite Hl1, Hlen1 in Hs. lia.
    + apply (Hlog2 i s Hs). apply lookup_lt_Some in Hs.
      rewrite Hl2, Hlen2 in Hs. lia.
Qed.

(** Two per second: the window opens at 5000; a request at 5999 and two
    at 6000 follow, and all four are allowed. *)
Lemma burst_across_the_window_boundary_witness :
  let options := Sample.two_per_second in
  let evs := [Incoming Sample.from_1234 Sample.blank 5000;
              Incoming Sample.from_1234 Sample.blank 5999;
              Incoming Sample.from_1234 Sample.blank 6000;
              Incoming Sample.from_1234 Sample.blank 6000] in
  length (run options evs Sample.created).2 = 4%nat ∧
  Forall allowed (run options evs Sample.created).2.
Proof.
  apply (burst_across_the_window_boundary Sample.two_per_second "1.2.3.4"
           Sample.from_1234 Sample.blank 5000 5999 Sample.created).
  - apply (reachable_created Sample.two_per_second ∅).
  - reflexivity.
  - left. reflexivity.
  - vm_compute. split; [discriminate|reflexivity].
Defined.

(** * Further properties of the key derivation *)



(** X11. The key [getClientIp] returns is the empty string in one case
    only: the [x-forwarded-for] value is not empty and its first
    comma-separated field is empty or all white space. Without a
    forwarding header the key is never empty. *)
Theorem empty_key_only_from_a_blank_first_field req :
  (getClientIp req = EmptyString ↔
     ∃ s f, forwardedFor req = Some s ∧ s ≠ EmptyString ∧
            firstField s f ∧ trimmed f EmptyString) ∧
  (falsy (forwardedFor req) → getClientIp req ≠ EmptyString).
Proof.
  assert (falsy (forwardedFor req) → getClientIp req ≠ EmptyString) as Hfalsy.
  { intros Hf. rewrite (getClientIp_address req Hf).
    destruct (ip req) as [[|c a]|], (remoteAddress (socket req)) as [[|d b]|]; done. }
  split; [|done]. split.
  - intros Hkey. destruct (forwardedFor req) as [[|c s]|] eqn:Hfwd.
    + exfalso. apply Hfalsy; [by right|done].
    + rewrite (getClientIp_forwarded req (String c s) Hfwd) in Hkey by done.
      destruct (head (JsString.split "," (String c s))) as [f|] eqn:Hhead.
      * exists (String c s), f. split_and!; [done|done| |].
        -- by apply head_split_firstField.
        -- by apply trim_trimmed.
      * destruct (JsString.split "," (String c s)) eqn:Hsp; [|done].
        by apply split_nonempty in Hsp.
    + exfalso. apply Hfalsy; [by left|done].
  - intros (s & f & Hfwd & Hs & Hf%head_split_firstField & Ht%trim_trimmed).
    rewrite (getClientIp_forwarded req s Hfwd Hs). by rewrite Hf.
Qed.

(** * Subscription tiers *)

Section tiers.
Import Subscription.

Lemma includes_true l x : includes l x = true ↔ x ∈ l.
Proof. unfold includes. apply bool_decide_eq_true. Qed.

Lemma includes_mono l l' x :
  (∀ y, y ∈ l → y ∈ l') → includes l x = true → includes l' x = true.
Proof. rewrite !includes_true. auto. Qed.

(** The tier by the identifiers that are listed: the highest one named. *)
Lemma getTierFromEntitlements_spec l :
  match getTierFromEntitlements l with
  | lifetime => ("lifetime"%string ∈ l)
  | adventurer => ("lifetime"%string ∉ l) ∧ ("adventurer"%string ∈ l)
  | explorer =>
      ("lifetime"%string ∉ l) ∧ ("adventurer"%string ∉ l) ∧
      (("explorer"%string ∈ l) ∨ ("Nomad Connect Pro"%string ∈ l))
  | starter =>
      ("lifetime"%string ∉ l) ∧ ("adventurer"%string ∉ l) ∧
      ("explorer"%string ∉ l) ∧ ("Nomad Connect Pro"%string ∉ l)
  end.
Proof.
  unfold getTierFromEntitlements, ENTITLEMENT_LIFETIME, ENTITLEMENT_ADVENTURER,
    ENTITLEMENT_EXPLORER, includes.
  repeat case_bool_decide; cbn; tauto.
Qed.

(** X12. [getTierFromEntitlements] looks only at which identifiers are
    listed, not at their order or number, and listing more identifiers
    never lowers the tier: when every identifier of one list is in
    another, the tier of the first is at most the tier of the second, and
    lists with the same members give the same tier. *)
Theorem more_entitlements_never_lower_the_tier (l l' : list string) :
  (∀ x, x ∈ l → x ∈ l') →
  (rank (getTierFromEntitlements l) ≤ rank (getTierFromEntitlements l'))%nat ∧
  ((∀ x, x ∈ l' → x ∈ l) → getTierFromEntitlements l = getTierFromEntitlements l').
Proof.
  intros Hsub.
  assert (∀ a b : list string, (∀ x, x ∈ a → x ∈ b) →
            (rank (getTierFromEntitlements a) ≤ rank (getTierFromEntitlements b))%nat)
    as Hmono.
  { intros a b Hab.
    pose proof (getTierFromEntitlements_spec a) as Ha.
    pose proof (getTierFromEntitlements_spec b) as Hb.
    pose proof (Hab "lifetime"%string). pose proof (Hab "adventurer"%string).
    pose proof (Hab "explorer"%string). pose proof (Hab "Nomad Connect Pro"%string).
    destruct (getTierFromEntitlements a), (getTierFromEntitlements b);
      cbn; try lia; exfalso; tauto. }
  split; [by apply Hmono|]. intros Hsup.
  pose proof (Hmono l l' Hsub). pose proof (Hmono l' l Hsup).
  destruct (getTierFromEntitlements l), (getTierFromEntitlements l');
    cbn in *; (done || lia).
Qed.

(** An explorer who also gets the adventurer entitlement moves up,
    wherever it is listed. *)
Lemma more_entitlements_never_lower_the_tier_witness :
  getTierFromEntitlements ["explorer"%string] = explorer ∧
  getTierFromEntitlements ["adventurer"; "explorer"]%string = adventurer ∧
  (rank (getTierFromEntitlements ["explorer"%string])
   ≤ rank (getTierFromEntitlements ["adventurer"; "explorer"]%string))%nat.
Proof.
  split; [reflexivity|]. split; [reflexivity|].
  apply (more_entitlements_never_lower_the_tier
           ["explorer"%string] ["adventurer"; "explorer"]%string).
  intros x Hx. apply list_elem_of_singleton in Hx as ->.
  apply list_elem_of_further, list_elem_of_here.
Defined.

Lemma activeAt_listed info id :
  activeAt info id = true → id ∈ (map_to_list (entitlements_active info)).*1.
Proof.
  unfold activeAt. destruct (entitlements_active info !! id) as [e|] eqn:He; [|done].
  intros _. apply list_elem_of_fmap. exists (id, e). split; [done|].
  by apply elem_of_map_to_list.
Qed.

(** X13. [getTierFromCustomerInfo] never gives a higher tier than
    [getTierFromEntitlements] gives for the identifiers listed in
    [info.entitlements.active], and gives the same tier when every listed
    entitlement is active. An entitlement that is listed but not active
    counts only when none of lifetime, adventurer and explorer is
    active. *)
Theorem tier_of_customer_info_is_bounded_by_the_listed info :
  let listed := (map_to_list (entitlements_active info)).*1 in
  (rank (getTierFromCustomerInfo info) ≤ rank (getTierFromEntitlements listed))%nat ∧
  ((∀ id e, entitlements_active info !! id = Some e → isActive e = true) →
     getTierFromCustomerInfo info = getTierFromEntitlements listed) ∧
  (activeAt info ENTITLEMENT_LIFETIME = false →
   activeAt info ENTITLEMENT_ADVENTURER = false →
   activeAt info ENTITLEMENT_EXPLORER = false →
     getTierFromCustomerInfo info = getTierFromEntitlements listed).
Proof.
  intros listed.
  pose proof (getTierFromEntitlements_spec listed) as Hspec.
  pose proof (activeAt_listed info ENTITLEMENT_LIFETIME) as Hl.
  pose proof (activeAt_listed info ENTITLEMENT_ADVENTURER) as Ha.
  pose proof (activeAt_listed info ENTITLEMENT_EXPLORER) as He.
  fold listed in Hl, Ha, He.
  unfold ENTITLEMENT_LIFETIME, ENTITLEMENT_ADVENTURER, ENTITLEMENT_EXPLORER in *.
  split_and!.
  - unfold getTierFromCustomerInfo. fold listed.
    unfold ENTITLEMENT_LIFETIME, ENTITLEMENT_ADVENTURER, ENTITLEMENT_EXPLORER.
    destruct (activeAt info "lifetime") eqn:El;
      [specialize (Hl eq_refl);
       destruct (getTierFromEntitlements listed); cbn; (lia || tauto)|].
    destruct (activeAt info "adventurer") eqn:Ea;
      [specialize (Ha eq_refl);
       destruct (getTierFromEntitlements listed); cbn; (lia || tauto)|].
    destruct (activeAt info "explorer") eqn:Ee;
      [specialize (He eq_refl);
       destruct (getTierFromEntitlements listed); cbn; (lia || tauto)|].
    done.
  - intros Hall.
    assert (∀ id, id ∈ listed → activeAt info id = true) as Hact.
    { intros id ([id' e] & -> & Hin%elem_of_map_to_list)%list_elem_of_fmap.
      unfold activeAt. cbn. rewrite Hin. by apply (Hall id' e). }
    pose proof (Hact "lifetime"%string) as Hl'.
    pose proof (Hact "adventurer"%string) as Ha'.
    pose proof (Hact "explorer"%string) as He'.
    unfold getTierFromCustomerInfo. fold listed.
    unfold ENTITLEMENT_LIFETIME, ENTITLEMENT_ADVENTURER, ENTITLEMENT_EXPLORER.
    destruct (activeAt info "lifetime"), (activeAt info "adventurer"),
      (activeAt info "explorer"), (getTierFromEntitlements listed);
      try done; exfalso; intuition discriminate.
  - intros El Ea Ee. unfold getTierFromCustomerInfo. fold listed.
    unfold ENTITLEMENT_LIFETIME, ENTITLEMENT_ADVENTURER, ENTITLEMENT_EXPLORER.
    by rewrite El, Ea, Ee.
Qed.

(** A lifetime entitlement that is listed as not active next to an
    active explorer one: explorer, although the identifiers alone would
    give lifetime. *)
Lemma tier_of_customer_info_is_bounded_by_the_listed_witness :
  let info := {| entitlements_active :=
                   {[ "lifetime"%string := {| isActive := false |};
                      "explorer"%string := {| isActive := true |} ]} |} in
  getTierFromCustomerInfo info = explorer ∧
  getTierFromEntitlements (map_to_list (entitlements_active info)).*1 = lifetime ∧
  (rank (getTierFromCustomerInfo info)
   ≤ rank (getTierFromEntitlements (map_to_list (entitlements_active info)).*1))%nat.
Proof.
  intros info. split; [vm_compute; reflexivity|]. split; [vm_compute; reflexivity|].
  apply (proj1 (tier_of_customer_info_is_bounded_by_the_listed info)).
Defined.
End tiers.

(** * File names of uploads *)

Section fileNames.
Lemma split_no_slash s : JsString.all (λ c, bool_decide (c ≠ "/"%char)) s = true → JsString.split "/" s = [s].
Proof.
  induction s as [|c s IH]; cbn; [done|].
  intros [Hc Hs]%andb_true_iff. apply bool_decide_eq_true in Hc.
  case_decide; [done|]. by rewrite (IH Hs).
Qed.

Lemma split_singleton s g : JsString.split "/" s = [g] → s = g ∧ JsString.all (λ c, bool_decide (c ≠ "/"%char)) g = true.
Proof.
  revert g. induction s as [|c s IH]; cbn; intros g.
  - by intros [= <-].
  - case_decide as Hc.
    + intros [= _ Hsp]. by apply split_nonempty in Hsp.
    + destruct (JsString.split "/" s) as [|f fs] eqn:Hsp; [by apply split_nonempty in Hsp|].
      intros [= <- ->]. destruct (IH f eq_refl) as [-> Hf].
      split; [done|]. cbn. rewrite Hf. by rewrite bool_decide_eq_true_2.
Qed.

Lemma last_cons_nonempty {A} (x : A) l : l ≠ [] → last (x :: l) = last l.
Proof. by destruct l. Qed.

(** [split("/").pop()] is what follows the last slash, and nothing else
    is. *)
Lemma last_split_lastField s f :
  lastField s f ↔ last (JsString.split "/" s) = Some f.
Proof.
  split.
  - intros [Hf [->|[pre ->]]].
    + by rewrite split_no_slash.
    + induction pre as [|c pre IH].
      * change (EmptyString +:+ String "/" f) with (String "/" f). cbn.
        by rewrite split_no_slash.
      * rewrite append_cons. cbn [JsString.split]. case_decide.
        -- rewrite last_cons_nonempty by apply split_nonempty. exact IH.
        -- destruct (JsString.split "/" (pre +:+ String "/" f)) as [|g gs] eqn:Hsp;
             [by apply split_nonempty in Hsp|].
           destruct gs as [|g' gs].
           ++ apply split_singleton in Hsp as [<- Hno]. exfalso.
              clear IH. induction pre as [|d pre IHp]; cbn in Hno; [done|].
              apply andb_true_iff in Hno as [_ Hno]. by apply IHp.
           ++ rewrite last_cons_nonempty by done.
              by rewrite last_cons_nonempty in IH by done.
  - revert f. induction s as [|c s IH]; intros f.
    + intros [= <-]. split; [done|by left].
    + cbn [JsString.split]. case_decide as Hc.
      * rewrite last_cons_nonempty by apply split_nonempty.
        intros [Hf Hs]%IH. split; [done|]. right. subst c.
        destruct Hs as [->|[pre ->]]; [by exists EmptyString|by exists (String "/" pre)].
      * destruct (JsString.split "/" s) as [|g gs] eqn:Hsp; [by apply split_nonempty in Hsp|].
        destruct gs as [|g' gs].
        -- intros [= <-]. apply split_singleton in Hsp as [-> Hg].
           split; [|by left]. cbn. rewrite Hg. by rewrite bool_decide_eq_true_2.
        -- rewrite last_cons_nonempty by done.
           rewrite <- (last_cons_nonempty g (g' :: gs)) by done.
           intros [Hf Hs]%IH. split; [done|]. right.
           destruct Hs as [->|[pre ->]]; [|by exists (String c pre)].
           by rewrite split_no_slash in Hsp.
Qed.

(** X14. [getFileName] returns what follows the last slash of the URI,
    or the whole URI when it has no slash, and the fallback when that is
    empty, that is when the URI is empty or ends with a slash. The result
    is therefore never empty when the fallback is not, and contains no
    slash when the fallback contains none. *)
Theorem file_name_is_the_last_path_segment uri fallback :
  (∃ f, lastField uri f) ∧
  (∀ f, lastField uri f →
     (f ≠ EmptyString → getFileName uri fallback = f) ∧
     (f = EmptyString → getFileName uri fallback = fallback)) ∧
  (fallback ≠ EmptyString → getFileName uri fallback ≠ EmptyString) ∧
  (JsString.all (λ c, bool_decide (c ≠ "/"%char)) fallback = true →
     JsString.all (λ c, bool_decide (c ≠ "/"%char)) (getFileName uri fallback) = true).
Proof.
  assert (∃ f, last (JsString.split "/" uri) = Some f) as [f0 Hf0].
  { destruct (JsString.split "/" uri) as [|g gs] eqn:Hsp; [by apply split_nonempty in Hsp|].
    by apply (proj2 (last_is_Some (g :: gs))). }
  assert (getFileName uri fallback = if decide (f0 = EmptyString) then fallback else f0)
    as Hname.
  { unfold getFileName. rewrite Hf0. by destruct f0. }
  pose proof (proj2 (last_split_lastField uri f0) Hf0) as Hlast.
  split_and!.
  - by exists f0.
  - intros f Hf%last_split_lastField. rewrite Hf0 in Hf. injection Hf as ->.
    rewrite Hname. split; intros ?; by case_decide.
  - intros Hfb. rewrite Hname. by case_decide.
  - intros Hfb. rewrite Hname. case_decide; [done|]. apply Hlast.
Qed.

(** The name after the last slash; a URI that ends with a slash gets the
    fallback. *)
Lemma file_name_is_the_last_path_segment_witness :
  getFileName "file:///cache/photo.jpg" "upload.jpg" = "photo.jpg"%string ∧
  getFileName "file:///cache/" "upload.jpg" = "upload.jpg"%string.
Proof.
  split.
  - apply (proj1 (proj2 (file_name_is_the_last_path_segment
                           "file:///cache/photo.jpg" "upload.jpg"))
             "photo.jpg"%string); [|discriminate].
    split; [reflexivity|]. right. by exists "file:///cache"%string.
  - apply (proj1 (proj2 (file_name_is_the_last_path_segment
                           "file:///cache/" "upload.jpg"))
             EmptyString); [|reflexivity].
    split; [reflexivity|]. right. by exists "file:///cache"%string.
Defined.
End fileNames.
